(** * AI Coloring Book Helper: the view/request state machine of [App.tsx]

    A shallow embedding of the React component [App] (its eight [useState]
    cells, its event handlers and its [useEffect]), of the two clients of
    [services/geminiService] and of the guards that the child components
    [PromptInput], [ImageDisplay] and [Header] put on the handlers.

    Conventions.
    - A JavaScript string is the list of its UTF-16 code units.
    - A handler is a function on the world; the setter calls of one
      handler run are batched into one render, after which the effect of
      [App] runs when one of its dependencies changed.
    - A call of a client that has not settled yet is recorded in the
      world; its continuation runs when the service's answers arrive. *)

From Stdlib Require Import List String Ascii NArith Bool Arith Lia.
Import ListNotations.

Set Implicit Arguments.

(* ------------------------------------------------------------------ *)
(** ** JavaScript strings and arrays *)

Module Js.

Definition jsstring : Type := list N.

(** A string literal of the source (all of them are ASCII). *)
Definition lit (s : string) : jsstring :=
  map N_of_ascii (list_ascii_of_string s).

Fixpoint eqb (a b : jsstring) : bool :=
  match a, b with
  | [], [] => true
  | x :: a', y :: b' => N.eqb x y && eqb a' b'
  | _, _ => false
  end.

(** Truthiness of a string: every string but the empty one. *)
Definition truthy (s : jsstring) : bool :=
  match s with [] => false | _ :: _ => true end.

(** WhiteSpace and LineTerminator code points of ECMAScript, the ones
    [String.prototype.trim] strips; all of them are single code units. *)
Definition isWhiteSpace (c : N) : bool :=
  (N.eqb c 9 || N.eqb c 10 || N.eqb c 11 || N.eqb c 12 || N.eqb c 13
   || N.eqb c 32 || N.eqb c 160 || N.eqb c 5760
   || (N.leb 8192 c && N.leb c 8202)
   || N.eqb c 8232 || N.eqb c 8233 || N.eqb c 8239 || N.eqb c 8287
   || N.eqb c 12288 || N.eqb c 65279)%bool.

Fixpoint trimStart (s : jsstring) : jsstring :=
  match s with
  | c :: s' => if isWhiteSpace c then trimStart s' else s
  | [] => []
  end.

Definition trimEnd (s : jsstring) : jsstring := rev (trimStart (rev s)).

Definition trim (s : jsstring) : jsstring := trimEnd (trimStart s).

(** [Array.prototype.includes] on an array of strings. *)
Definition includes (l : list jsstring) (x : jsstring) : bool :=
  existsb (eqb x) l.

(** The value of [`${v}`] for a [string | undefined]. *)
Definition interpolate (v : option jsstring) : jsstring :=
  match v with Some s => s | None => lit "undefined" end.

End Js.

Import Js.

(* ------------------------------------------------------------------ *)
(** ** [types.ts] *)

Inductive ApiState : Type := IDLE | LOADING | SUCCESS | ERROR.

Definition ApiState_eqb (a b : ApiState) : bool :=
  match a, b with
  | IDLE, IDLE | LOADING, LOADING | SUCCESS, SUCCESS | ERROR, ERROR => true
  | _, _ => false
  end.

(** The union type ['promptInput' | 'imageDisplay'] of [currentPage]. *)
Inductive Page : Type := promptInput | imageDisplay.

Definition Page_eqb (a b : Page) : bool :=
  match a, b with
  | promptInput, promptInput | imageDisplay, imageDisplay => true
  | _, _ => false
  end.

(* ------------------------------------------------------------------ *)
(** ** [services/geminiService]: the two clients

    The hosted model is the environment: a client is a computation that
    issues requests and is resumed with the answer of each one. *)

Module Gemini.

(** A thrown value, as far as a [catch] block of the source looks at
    it: [error instanceof Error ? error.message : String(error)]. *)
Inductive Thrown : Type :=
| ErrorObject (message : jsstring)
| OtherValue (asString : jsstring).

Definition describe (e : Thrown) : jsstring :=
  match e with
  | ErrorObject m => m
  | OtherValue s => s
  end.

(** How a promise settles. *)
Inductive Settled (A : Type) : Type :=
| Fulfilled (value : A)
| Rejected (reason : Thrown).
Arguments Fulfilled {A} value.
Arguments Rejected {A} reason.

(** The part of [GenerateContentResponse] that the clients read. *)
Record Blob : Type := { data : option jsstring; mimeType : option jsstring }.
Record Part : Type := { inlineData : option Blob }.
Record Content : Type := { parts : option (list Part) }.
Record Candidate : Type := { content : option Content }.
Record Response : Type :=
  { text : option jsstring; candidates : option (list Candidate) }.

(** The argument of [ai.models.generateContent]. *)
Record Request : Type :=
  { model : jsstring;
    contents : jsstring;
    systemInstruction : option jsstring;
    aspectRatio : option jsstring }.

Definition Answer : Type := Settled Response.

(** An [async] function body. *)
Inductive Async (A : Type) : Type :=
| Return (a : A)
| Throw (e : Thrown)
| Await (req : Request) (k : Answer -> Async A).
Arguments Return {A} a.
Arguments Throw {A} e.
Arguments Await {A} req k.

Fixpoint bind {A B : Type} (m : Async A) (f : A -> Async B) : Async B :=
  match m with
  | Return a => f a
  | Throw e => Throw e
  | Await req k => Await req (fun ans => bind (k ans) f)
  end.

(** [try { m } catch (error) { h error }] *)
Fixpoint tryCatch {A : Type} (m : Async A) (h : Thrown -> Async A) : Async A :=
  match m with
  | Return a => Return a
  | Throw e => h e
  | Await req k => Await req (fun ans => tryCatch (k ans) h)
  end.

(** [await ai.models.generateContent(req)] *)
Definition generateContent (req : Request) : Async Response :=
  Await req (fun ans =>
    match ans with
    | Fulfilled r => Return r
    | Rejected e => Throw e
    end).

(** A synchronous helper that returns or throws. *)
Definition ofSettled {A : Type} (r : Settled A) : Async A :=
  match r with
  | Fulfilled a => Return a
  | Rejected e => Throw e
  end.

Declare Scope async_scope.
Delimit Scope async_scope with async.
Notation "x <- m ;; k" := (bind m (fun x => k))
  (at level 61, m at next level, right associativity) : async_scope.

(** Runs a client against the answers of the service, in the order of
    its requests.  The result is [None] while the client still waits
    for an answer; the requests issued so far come with it. *)
Fixpoint run {A : Type} (m : Async A) (answers : list Answer)
  : option (Settled A) * list Request :=
  match m with
  | Return a => (Some (Fulfilled a), [])
  | Throw e => (Some (Rejected e), [])
  | Await req k =>
      match answers with
      | [] => (None, [req])
      | ans :: rest =>
          let (r, reqs) := run (k ans) rest in (r, req :: reqs)
      end
  end.

Definition outcome {A : Type} (m : Async A) (answers : list Answer)
  : option (Settled A) := fst (run m answers).

Definition requests {A : Type} (m : Async A) (answers : list Answer)
  : list Request := snd (run m answers).

Definition systemInstructionText : jsstring := lit
"You are an AI image prompt generator for a children's coloring book app.
Your goal is to convert raw voice transcripts into generic, safe, cute, and descriptive prompts.
Enforce 'black and white line art' style.
Remove any unsafe or inappropriate concepts gently by ignoring them.
Keep the subject simple and cute.
Always append these style keywords: 'thick outlines, white background, vector style, coloring book page for kids, no shading, no grayscale.'
Only output the raw prompt text.".

Definition promptRequest (transcript : jsstring) : Request :=
  {| model := lit "gemini-2.5-flash";
     contents := transcript;
     systemInstruction := Some systemInstructionText;
     aspectRatio := None |}.

Definition imageRequest (text : jsstring) : Request :=
  {| model := lit "gemini-2.5-flash-image";
     contents := text;
     systemInstruction := None;
     aspectRatio := Some (lit "1:1") |}.

Local Open Scope async_scope.

Definition generateColoringBookPrompt (transcript : jsstring) : Async jsstring :=
  tryCatch
    (response <- generateContent (promptRequest transcript) ;;
     (* response.text?.trim() *)
     let text := option_map trim (text response) in
     match text with
     | Some t =>
         if truthy t then Return t
         else Throw (ErrorObject (lit "Gemini did not return a valid prompt text."))
     | None => Throw (ErrorObject (lit "Gemini did not return a valid prompt text."))
     end)
    (fun error =>
       Throw (ErrorObject (lit "Failed to generate prompt: " ++ describe error))).

(** [response.candidates?.[0]?.content?.parts || []] *)
Definition firstParts (response : Response) : list Part :=
  match candidates response with
  | Some (c :: _) =>
      match content c with
      | Some ct => match parts ct with Some ps => ps | None => [] end
      | None => []
      end
  | _ => []
  end.

(** The loop of [extractImageUrl]. *)
Fixpoint firstImageUrl (ps : list Part) : option jsstring :=
  match ps with
  | [] => None
  | part :: ps' =>
      match inlineData part with
      | Some blob =>
          let base64EncodeString := data blob in
          match mimeType blob with
          | Some mt =>
              if truthy mt
              then Some (lit "data:" ++ mt ++ lit ";base64,"
                           ++ interpolate base64EncodeString)
              else firstImageUrl ps'
          | None => firstImageUrl ps'
          end
      | None => firstImageUrl ps'
      end
  end.

Definition extractImageUrl (response : Response) : Settled jsstring :=
  match firstImageUrl (firstParts response) with
  | Some url => Fulfilled url
  | None =>
      Rejected (ErrorObject
        (lit "Gemini did not return an image part with inlineData and mimeType."))
  end.

(** One underlying request of [generateColoringBookImage] as its
    caller sees it: the awaited response put through
    [extractImageUrl], or the rejection of the request. *)
Definition imageOf (ans : Answer) : Settled jsstring :=
  match ans with
  | Fulfilled response => extractImageUrl response
  | Rejected e => Rejected e
  end.

Definition comicSuffix : jsstring :=
  lit ", classic comic book style, bold outlines".
Definition doodleSuffix : jsstring :=
  lit ", playful doodle art style, slightly simplified lines".

(** The array [imageUrls] is local to one call; [push] is threaded
    through as a value.  The construction of the SDK object before the
    [try] block is taken to succeed. *)
Definition generateColoringBookImage (prompt : jsstring) : Async (list jsstring) :=
  let imageUrls : list jsstring := [] in
  tryCatch
    (let prompt1 := prompt ++ comicSuffix in
     let prompt2 := prompt ++ doodleSuffix in
     response1 <- generateContent (imageRequest prompt1) ;;
     url1 <- ofSettled (extractImageUrl response1) ;;
     let imageUrls := imageUrls ++ [url1] in
     response2 <- generateContent (imageRequest prompt2) ;;
     url2 <- ofSettled (extractImageUrl response2) ;;
     let imageUrls := imageUrls ++ [url2] in
     Return imageUrls)
    (fun error =>
       Throw (ErrorObject (lit "Failed to generate image: " ++ describe error))).

(** How each client settles when its [catch] block rethrows. *)
Definition promptFailure (reason : jsstring) : Settled jsstring :=
  Rejected (ErrorObject (lit "Failed to generate prompt: " ++ reason)).

Definition imageFailure (reason : jsstring) : Settled (list jsstring) :=
  Rejected (ErrorObject (lit "Failed to generate image: " ++ reason)).

End Gemini.

Import Gemini.

(* ------------------------------------------------------------------ *)
(** ** [App.tsx]: state, handlers and effect *)

Module App.

(** The eight [useState] cells of [App]. *)
Record AppState : Type :=
  { transcript : jsstring;
    generatedPrompt : jsstring;
    imageUrls : option (list jsstring);
    selectedImageUrls : list jsstring;
    promptApiState : ApiState;
    imageApiState : ApiState;
    error : option jsstring;
    currentPage : Page }.

(** The component state together with the calls of the two clients:
    every call ever started, in order (a call is named by its position),
    and the positions of those that have settled. *)
Record World : Type :=
  { app : AppState;
    promptCalls : list jsstring;
    promptSettled : list nat;
    imageCalls : list jsstring;
    imageSettled : list nat }.

Definition initialState : AppState :=
  {| transcript := [];
     generatedPrompt := [];
     imageUrls := None;
     selectedImageUrls := [];
     promptApiState := IDLE;
     imageApiState := IDLE;
     error := None;
     currentPage := promptInput |}.

Definition initialWorld : World :=
  {| app := initialState;
     promptCalls := []; promptSettled := [];
     imageCalls := []; imageSettled := [] |}.

(** A handler run: the state updates it enqueues, applied in order. *)
Definition Handler : Type := World -> World.

Definition seq (f g : Handler) : Handler := fun w => g (f w).
Definition skip : Handler := fun w => w.

Declare Scope handler_scope.
Delimit Scope handler_scope with handler.
Notation "f ;; g" := (seq f g)
  (at level 61, right associativity) : handler_scope.

Definition update (f : AppState -> AppState) : Handler := fun w =>
  {| app := f (app w);
     promptCalls := promptCalls w; promptSettled := promptSettled w;
     imageCalls := imageCalls w; imageSettled := imageSettled w |}.

Definition setTranscript (v : jsstring) : Handler := update (fun s =>
  {| transcript := v; generatedPrompt := generatedPrompt s;
     imageUrls := imageUrls s; selectedImageUrls := selectedImageUrls s;
     promptApiState := promptApiState s; imageApiState := imageApiState s;
     error := error s; currentPage := currentPage s |}).

Definition setGeneratedPrompt (v : jsstring) : Handler := update (fun s =>
  {| transcript := transcript s; generatedPrompt := v;
     imageUrls := imageUrls s; selectedImageUrls := selectedImageUrls s;
     promptApiState := promptApiState s; imageApiState := imageApiState s;
     error := error s; currentPage := currentPage s |}).

Definition setImageUrls (v : option (list jsstring)) : Handler := update (fun s =>
  {| transcript := transcript s; generatedPrompt := generatedPrompt s;
     imageUrls := v; selectedImageUrls := selectedImageUrls s;
     promptApiState := promptApiState s; imageApiState := imageApiState s;
     error := error s; currentPage := currentPage s |}).

(** The updater form [setSelectedImageUrls(prev => ...)]; a plain
    value [v] is the updater [fun _ => v]. *)
Definition setSelectedImageUrls (f : list jsstring -> list jsstring) : Handler :=
  update (fun s =>
  {| transcript := transcript s; generatedPrompt := generatedPrompt s;
     imageUrls := imageUrls s; selectedImageUrls := f (selectedImageUrls s);
     promptApiState := promptApiState s; imageApiState := imageApiState s;
     error := error s; currentPage := currentPage s |}).

Definition setPromptApiState (v : ApiState) : Handler := update (fun s =>
  {| transcript := transcript s; generatedPrompt := generatedPrompt s;
     imageUrls := imageUrls s; selectedImageUrls := selectedImageUrls s;
     promptApiState := v; imageApiState := imageApiState s;
     error := error s; currentPage := currentPage s |}).

Definition setImageApiState (v : ApiState) : Handler := update (fun s =>
  {| transcript := transcript s; generatedPrompt := generatedPrompt s;
     imageUrls := imageUrls s; selectedImageUrls := selectedImageUrls s;
     promptApiState := promptApiState s; imageApiState := v;
     error := error s; currentPage := currentPage s |}).

Definition setError (v : option jsstring) : Handler := update (fun s =>
  {| transcript := transcript s; generatedPrompt := generatedPrompt s;
     imageUrls := imageUrls s; selectedImageUrls := selectedImageUrls s;
     promptApiState := promptApiState s; imageApiState := imageApiState s;
     error := v; currentPage := currentPage s |}).

Definition setCurrentPage (v : Page) : Handler := update (fun s =>
  {| transcript := transcript s; generatedPrompt := generatedPrompt s;
     imageUrls := imageUrls s; selectedImageUrls := selectedImageUrls s;
     promptApiState := promptApiState s; imageApiState := imageApiState s;
     error := error s; currentPage := v |}).

(** Starting a client call: the call is recorded, its continuation
    runs when it settles. *)
Definition callPrompt (transcript : jsstring) : Handler := fun w =>
  {| app := app w;
     promptCalls := promptCalls w ++ [transcript];
     promptSettled := promptSettled w;
     imageCalls := imageCalls w; imageSettled := imageSettled w |}.

Definition callImage (prompt : jsstring) : Handler := fun w =>
  {| app := app w;
     promptCalls := promptCalls w; promptSettled := promptSettled w;
     imageCalls := imageCalls w ++ [prompt];
     imageSettled := imageSettled w |}.

Definition markPromptSettled (n : nat) : Handler := fun w =>
  {| app := app w;
     promptCalls := promptCalls w; promptSettled := n :: promptSettled w;
     imageCalls := imageCalls w; imageSettled := imageSettled w |}.

Definition markImageSettled (n : nat) : Handler := fun w =>
  {| app := app w;
     promptCalls := promptCalls w; promptSettled := promptSettled w;
     imageCalls := imageCalls w; imageSettled := n :: imageSettled w |}.

(** The call at position [n] of [calls], when it has not settled. *)
Definition inFlight (calls : list jsstring) (settled : list nat) (n : nat)
  : option jsstring :=
  if existsb (Nat.eqb n) settled then None else nth_error calls n.

Local Open Scope handler_scope.

(** The updater of [handleToggleImageSelection]. *)
Definition toggle (url : jsstring) (prevSelected : list jsstring) : list jsstring :=
  if includes prevSelected url
  then filter (fun selectedUrl => negb (Js.eqb selectedUrl url)) prevSelected
  else prevSelected ++ [url].

Definition handleToggleImageSelection (url : jsstring) : Handler :=
  setSelectedImageUrls (toggle url).

(** What [handlePrintSelectedImages] does outside the component: an
    alert, or a print window with one page per selected image.  It
    calls no setter. *)
Inductive PrintOutcome : Type :=
| AlertSelectImage
| AlertPopupBlocked
| PrintPages (urls : list jsstring).

Definition printOutcome (popupOpens : bool) (s : AppState) : PrintOutcome :=
  match selectedImageUrls s with
  | [] => AlertSelectImage
  | _ :: _ =>
      if popupOpens then PrintPages (selectedImageUrls s) else AlertPopupBlocked
  end.

Definition handlePrintSelectedImages : Handler := skip.

(** [handleGeneratePrompt], up to its [await]. *)
Definition handleGeneratePrompt : Handler := fun w =>
  let transcript := transcript (app w) in
  (setError None ;;
   setPromptApiState LOADING ;;
   setImageApiState IDLE ;;
   setImageUrls None ;;
   setSelectedImageUrls (fun _ => []) ;;
   if negb (truthy (trim transcript))
   then
     setError (Some (lit "Please enter an idea to generate a prompt.")) ;;
     setPromptApiState ERROR
   else
     callPrompt transcript) w.

(** [handleGeneratePrompt], after its [await]. *)
Definition promptContinuation (result : Settled jsstring) : Handler :=
  match result with
  | Fulfilled prompt =>
      setGeneratedPrompt prompt ;;
      setPromptApiState SUCCESS ;;
      setCurrentPage imageDisplay
  | Rejected err =>
      setError (Some (lit "Failed to generate prompt: " ++ describe err)) ;;
      setPromptApiState ERROR ;;
      setGeneratedPrompt []
  end.

Definition handleBackToPromptInput : Handler :=
  setCurrentPage promptInput ;;
  setImageUrls None ;;
  setImageApiState IDLE ;;
  setSelectedImageUrls (fun _ => []).

(** [handleGenerateImage] of the effect, up to its [await]. *)
Definition handleGenerateImage : Handler := fun w =>
  let s := app w in
  if (ApiState_eqb (promptApiState s) SUCCESS
      && truthy (generatedPrompt s)
      && Page_eqb (currentPage s) imageDisplay)%bool
  then
    (setError None ;;
     setImageApiState LOADING ;;
     setImageUrls None ;;
     setSelectedImageUrls (fun _ => []) ;;
     callImage (generatedPrompt s)) w
  else w.

(** [handleGenerateImage], after its [await]. *)
Definition imageContinuation (result : Settled (list jsstring)) : Handler :=
  match result with
  | Fulfilled urls =>
      setImageUrls (Some urls) ;;
      setImageApiState SUCCESS
  | Rejected err =>
      setError (Some (lit "Failed to generate image: " ++ describe err)) ;;
      setImageApiState ERROR ;;
      setImageUrls None
  end.

(** The dependency array [[generatedPrompt, promptApiState, currentPage]]
    compared as React does. *)
Definition depsChanged (prev next : AppState) : bool :=
  negb (Js.eqb (generatedPrompt prev) (generatedPrompt next)
        && ApiState_eqb (promptApiState prev) (promptApiState next)
        && Page_eqb (currentPage prev) (currentPage next))%bool.

(** The render that follows a batch of updates: the effect runs when a
    dependency differs from the previous render.  The updates of the
    effect itself touch no dependency, so the render after them runs
    no effect. *)
Definition commit (prev : AppState) : Handler := fun w =>
  if depsChanged prev (app w) then handleGenerateImage w else w.

(** What reaches the component: the calls of its handlers by the
    child components, and the settling of a client call with the
    service's answers to its requests. *)
Inductive Event : Type :=
| EditTranscript (text : jsstring)
| SubmitPrompt
| PromptSettled (n : nat) (answers : list Answer)
| ImageSettled (n : nat) (answers : list Answer)
| ToggleSelection (url : jsstring)
| RequestPrint
| GoBack.

(** The batch of updates of one event, before the render. *)
Definition handle (e : Event) : Handler := fun w =>
  match e with
  | EditTranscript text => setTranscript text w
  | SubmitPrompt => handleGeneratePrompt w
  | PromptSettled n answers =>
      match inFlight (promptCalls w) (promptSettled w) n with
      | Some transcript =>
          match outcome (generateColoringBookPrompt transcript) answers with
          | Some result => (markPromptSettled n ;; promptContinuation result) w
          | None => w
          end
      | None => w
      end
  | ImageSettled n answers =>
      match inFlight (imageCalls w) (imageSettled w) n with
      | Some prompt =>
          match outcome (generateColoringBookImage prompt) answers with
          | Some result => (markImageSettled n ;; imageContinuation result) w
          | None => w
          end
      | None => w
      end
  | ToggleSelection url => handleToggleImageSelection url w
  | RequestPrint => handlePrintSelectedImages w
  | GoBack => handleBackToPromptInput w
  end.

Definition dispatch (w : World) (e : Event) : World :=
  commit (app w) (handle e w).

Definition runEvents (w : World) (es : list Event) : World :=
  fold_left dispatch es w.

(** The effect also runs after the first render; there it finds
    [promptApiState = IDLE] and does nothing. *)
Definition mounted : World := handleGenerateImage initialWorld.

(** The events that can reach the component while a prompt call is
    pending on the prompt page: edits of the transcript (typed or
    dictated), toggles, print, and the settling of an older image call. *)
Definition keepsPromptPending (e : Event) : bool :=
  match e with
  | EditTranscript _ | ImageSettled _ _ | ToggleSelection _ | RequestPrint => true
  | SubmitPrompt | PromptSettled _ _ | GoBack => false
  end.

(** Only calls that were started have settled. *)
Definition settledInRange (w : World) : Prop :=
  (forall n, In n (promptSettled w) -> n < List.length (promptCalls w))
  /\ (forall n, In n (imageSettled w) -> n < List.length (imageCalls w)).

Inductive Reachable : World -> Prop :=
| reach_mount : Reachable mounted
| reach_step w e : Reachable w -> Reachable (dispatch w e).

End App.

Import App.

(* ------------------------------------------------------------------ *)
(** ** The child components: which handler calls the rendered page allows *)

Module View.

(** [PromptInput]: [isRecording] and [interimSpeechResult] are its own
    state, given here as they are at the time of the gesture. *)
Definition displayTranscript (isRecording : bool) (interimSpeechResult : jsstring)
    (transcript : jsstring) : jsstring :=
  if isRecording
  then (if truthy transcript then transcript ++ lit " " else []) ++ interimSpeechResult
  else transcript.

Definition textareaDisabled (isRecording : bool) (s : AppState) : bool :=
  (ApiState_eqb (promptApiState s) LOADING || isRecording)%bool.

Definition generateDisabled (isRecording : bool) (interimSpeechResult : jsstring)
    (s : AppState) : bool :=
  (ApiState_eqb (promptApiState s) LOADING
   || isRecording
   || negb (truthy (trim (displayTranscript isRecording interimSpeechResult
                            (transcript s)))))%bool.

(** [ImageDisplay]: the [error] prop is
    [imageApiState === ApiState.ERROR ? error : null]. *)
Definition errorProp (s : AppState) : option jsstring :=
  if ApiState_eqb (imageApiState s) ERROR then error s else None.

Definition falsy (v : option jsstring) : bool :=
  match v with
  | None => true
  | Some m => negb (truthy m)
  end.

Definition showImages (s : AppState) : bool :=
  let isLoading := ApiState_eqb (imageApiState s) LOADING in
  (negb isLoading
   && falsy (errorProp s)
   && match imageUrls s with
      | Some (_ :: _) => true
      | _ => false
      end)%bool.

(** The tiles rendered by [imageUrls.map], under [showImages]. *)
Definition shownImages (s : AppState) : list jsstring :=
  if showImages s
  then match imageUrls s with
       | Some urls => urls
       | None => []
       end
  else [].

Definition canPrint (s : AppState) : bool :=
  (showImages s
   && match selectedImageUrls s with [] => false | _ :: _ => true end)%bool.

(** What the user can do to the rendered page. *)
Inductive Gesture : Type :=
| TypeTranscript (isRecording : bool) (text : jsstring)
| ClickGenerate (isRecording : bool) (interimSpeechResult : jsstring)
| ClickImage (index : nat)
| ClickPrint
| ClickBack.

(** The handler call a gesture results in: none when the control is not
    rendered on the current page or is disabled. *)
Definition eventOf (s : AppState) (g : Gesture) : option Event :=
  match currentPage s, g with
  | promptInput, TypeTranscript isRecording text =>
      if textareaDisabled isRecording s then None
      else Some (EditTranscript text)
  | promptInput, ClickGenerate isRecording interim =>
      if generateDisabled isRecording interim s then None
      else Some SubmitPrompt
  | imageDisplay, ClickImage index =>
      option_map ToggleSelection (nth_error (shownImages s) index)
  | imageDisplay, ClickPrint =>
      if canPrint s then Some RequestPrint else None
  | imageDisplay, ClickBack => Some GoBack
  | _, _ => None
  end.

Definition act (w : World) (g : Gesture) : World :=
  match eventOf (app w) g with
  | Some e => dispatch w e
  | None => w
  end.

End View.

Import View.

(* ------------------------------------------------------------------ *)
(** ** Sample data *)

Module Sample.

Definition textAnswer (t : string) : Answer :=
  Fulfilled {| text := Some (lit t); candidates := None |}.

Definition imageAnswer (mime payload : string) : Answer :=
  Fulfilled
    {| text := None;
       candidates := Some
         [ {| content := Some
                {| parts := Some
                     [ {| inlineData := None |};
                       {| inlineData := Some
                            {| data := Some (lit payload);
                               mimeType := Some (lit mime) |} |} ] |} |} ] |}.

Definition failure (m : string) : Answer := Rejected (ErrorObject (lit m)).

Definition imgA : jsstring := lit "data:image/png;base64,AAAA".
Definition imgB : jsstring := lit "data:image/png;base64,BBBB".

(** Scenario 1 of the specification: a prompt and its two images. *)
Definition scenario1 : list Event :=
  [ EditTranscript (lit "a happy dinosaur");
    SubmitPrompt;
    PromptSettled 0 [textAnswer " A happy dinosaur, black and white line art "];
    ImageSettled 0 [imageAnswer "image/png" "AAAA"; imageAnswer "image/png" "BBBB"] ].

Definition afterScenario1 : World := runEvents mounted scenario1.

End Sample.

(* ------------------------------------------------------------------ *)
(** ** [PromptInput]: dictation *)

Module Dictation.

(** [event.results[i]] as [onresult] reads it: [isFinal] and
    [results[i][0].transcript]. *)
Record SpeechRecognitionResult : Type :=
  { isFinal : bool; firstAlternative : jsstring }.

Record SpeechRecognitionEvent : Type :=
  { resultIndex : nat; results : list SpeechRecognitionResult }.

(** The two [useState] cells of [PromptInput]. *)
Record Mic : Type :=
  { isRecording : bool; interimSpeechResult : jsstring }.

(** One turn of the [for] loop of [onresult], on the pair
    [(finalTranscript, currentInterim)]. *)
Definition onresultStep (acc : jsstring * jsstring) (r : SpeechRecognitionResult)
  : jsstring * jsstring :=
  let (finalTranscript, currentInterim) := acc in
  let transcriptChunk := firstAlternative r in
  if isFinal r
  then (finalTranscript ++ transcriptChunk, currentInterim)
  else (finalTranscript, currentInterim ++ transcriptChunk).

(** [for (let i = event.resultIndex; i < event.results.length; i++)] *)
Definition onresultLoop (event : SpeechRecognitionEvent) : jsstring * jsstring :=
  fold_left onresultStep (skipn (resultIndex event) (results event)) ([], []).

(** The handlers, on the component's own state and the [transcript] they
    reach through [setTranscript]. *)
Definition onstart (st : Mic * jsstring) : Mic * jsstring :=
  ({| isRecording := true; interimSpeechResult := [] |}, []).

Definition onresult (event : SpeechRecognitionEvent) (st : Mic * jsstring)
  : Mic * jsstring :=
  let (mic, prev) := st in
  let (finalTranscript, currentInterim) := onresultLoop event in
  ({| isRecording := isRecording mic; interimSpeechResult := currentInterim |},
   if truthy finalTranscript
   then (if truthy prev then prev ++ lit " " else []) ++ finalTranscript
   else prev).

Definition onend (st : Mic * jsstring) : Mic * jsstring :=
  ({| isRecording := false; interimSpeechResult := [] |}, snd st).

Definition handleStopRecording (st : Mic * jsstring) : Mic * jsstring :=
  ({| isRecording := false; interimSpeechResult := [] |}, snd st).

Inductive SpeechRecognitionErrorCode : Type :=
| no_speech | aborted | audio_capture | network | not_allowed
| service_not_allowed | bad_grammar | language_not_supported.

(** The text of the alert of [onerror]. *)
Definition errorMessage (code : SpeechRecognitionErrorCode) : jsstring :=
  match code with
  | not_allowed =>
      lit "Microphone permission denied. Please enable it in your browser settings."
  | no_speech => lit "No speech detected. Please try again."
  | network => lit "Network error. Please check your internet connection."
  | _ => lit "An error occurred during speech recognition."
  end.

Definition onerror (code : SpeechRecognitionErrorCode) (st : Mic * jsstring)
  : Mic * jsstring :=
  ({| isRecording := false; interimSpeechResult := [] |}, snd st).

(** A recording from its start through a run of result events. *)
Definition dictate (events : list SpeechRecognitionEvent) (st : Mic * jsstring)
  : Mic * jsstring :=
  fold_left (fun st event => onresult event st) events (onstart st).

(** [chunks.join(' ')] *)
Fixpoint joinSpace (chunks : list jsstring) : jsstring :=
  match chunks with
  | [] => []
  | [c] => c
  | c :: rest => c ++ lit " " ++ joinSpace rest
  end.

(** The texts of the final results of a list, one after the other, and
    those of the results that are not final. *)
Definition finalChunks (l : list SpeechRecognitionResult) : jsstring :=
  List.concat (map firstAlternative (filter isFinal l)).

Definition interimChunks (l : list SpeechRecognitionResult) : jsstring :=
  List.concat (map firstAlternative (filter (fun r => negb (isFinal r)) l)).

End Dictation.

(* ------------------------------------------------------------------ *)
(** ** What is rendered *)

Module Panels.

(** The two page blocks of [App]:
    [{currentPage === 'promptInput' && (...)}] and
    [{currentPage === 'imageDisplay' && (...)}]. *)
Definition promptPageShown (s : AppState) : bool :=
  Page_eqb (currentPage s) promptInput.

Definition imagePageShown (s : AppState) : bool :=
  Page_eqb (currentPage s) imageDisplay.

(** [error && promptApiState === ApiState.ERROR], the condition inside
    the prompt page block, and the error panel of the prompt page, which
    is rendered when the block is and the condition holds. *)
Definition promptErrorCondition (s : AppState) : bool :=
  (negb (falsy (error s)) && ApiState_eqb (promptApiState s) ERROR)%bool.

Definition promptErrorPanel (s : AppState) : bool :=
  (promptPageShown s && promptErrorCondition s)%bool.

(** [error && imageApiState === ApiState.ERROR], the condition inside
    the image page block, and the error panel of the image page. *)
Definition imageErrorCondition (s : AppState) : bool :=
  (negb (falsy (error s)) && ApiState_eqb (imageApiState s) ERROR)%bool.

Definition imageErrorPanel (s : AppState) : bool :=
  (imagePageShown s && imageErrorCondition s)%bool.

(** The conditions of the three blocks of [ImageDisplay], which [App]
    mounts inside the image page block; the second is [showImages]. *)
Definition loadingPanel (s : AppState) : bool :=
  ApiState_eqb (imageApiState s) LOADING.

Definition placeholderPanel (s : AppState) : bool :=
  let isLoading := ApiState_eqb (imageApiState s) LOADING in
  (negb isLoading
   && falsy (errorProp s)
   && match imageUrls s with
      | None | Some [] => true
      | Some (_ :: _) => false
      end)%bool.

(** How many of the four conditions inside the image page block hold. *)
Definition imagePagePanels (s : AppState) : nat :=
  List.length
    (filter (fun shown : bool => shown)
       [imageErrorCondition s; loadingPanel s; showImages s; placeholderPanel s]).

(** The image grid as rendered: [ImageDisplay] is mounted on the image
    page only, and shows its tiles under [showImages]. *)
Definition gridRendered (s : AppState) : bool :=
  (imagePageShown s && showImages s)%bool.

Definition renderedTiles (s : AppState) : list jsstring :=
  if imagePageShown s then shownImages s else [].

End Panels.

(* ------------------------------------------------------------------ *)
(** ** Executions driven through the rendered page *)

Module Driven.

(** What arrives in a running application: a gesture on the rendered
    page, a [setTranscript] of the dictation handlers, and the settling
    of a client call. *)
Inductive Input : Type :=
| UserGesture (g : Gesture)
| Dictated (text : jsstring)
| PromptAnswered (n : nat) (answers : list Answer)
| ImageAnswered (n : nat) (answers : list Answer).

Definition drive (w : World) (i : Input) : World :=
  match i with
  | UserGesture g => act w g
  | Dictated text => dispatch w (EditTranscript text)
  | PromptAnswered n answers => dispatch w (PromptSettled n answers)
  | ImageAnswered n answers => dispatch w (ImageSettled n answers)
  end.

Inductive ViewReachable : World -> Prop :=
| view_mount : ViewReachable mounted
| view_step w i : ViewReachable w -> ViewReachable (drive w i).

(** The locators on display: those of [imageUrls], none when it is null. *)
Definition images (s : AppState) : list jsstring :=
  match imageUrls s with
  | Some urls => urls
  | None => []
  end.

(** A part that [extractImageUrl] returns from: it has [inlineData] with
    a truthy [mimeType]. *)
Definition qualifies (part : Part) : bool :=
  match inlineData part with
  | Some blob =>
      match mimeType blob with
      | Some mt => truthy mt
      | None => false
      end
  | None => false
  end.

(** Why one answer of the service makes the prompt client fail, if it
    does: the request was rejected, or the response text is missing or
    blank. *)
Definition promptFailureReason (ans : Answer) : option jsstring :=
  match ans with
  | Rejected e => Some (describe e)
  | Fulfilled response =>
      match text response with
      | Some t =>
          if truthy (trim t) then None
          else Some (lit "Gemini did not return a valid prompt text.")
      | None => Some (lit "Gemini did not return a valid prompt text.")
      end
  end.

(** No white space at either end, and not empty. *)
Definition trimmed (s : jsstring) : Prop :=
  s <> []
  /\ (forall c rest, s = c :: rest -> isWhiteSpace c = false)
  /\ (forall front c, s = front ++ [c] -> isWhiteSpace c = false).

(** [images] is present exactly when the image call has succeeded, and
    then holds two locators. *)
Definition imagesInvariant (s : AppState) : Prop :=
  (imageApiState s = SUCCESS <-> imageUrls s <> None)
  /\ (forall urls, imageUrls s = Some urls -> List.length urls = 2).

(** A failed status comes with an error text that is not empty. *)
Definition errorInvariant (s : AppState) : Prop :=
  promptApiState s = ERROR \/ imageApiState s = ERROR ->
  exists m, error s = Some m /\ m <> [].

(** A successful prompt status comes with a trimmed prompt. *)
Definition promptInvariant (s : AppState) : Prop :=
  promptApiState s = SUCCESS -> trimmed (generatedPrompt s).

(** A prompt call in flight is the last one started, shown as loading on
    the prompt page; the image page is only shown for a successful
    prompt. *)
Definition promptCallInvariant (w : World) : Prop :=
  (forall n t,
      inFlight (promptCalls w) (promptSettled w) n = Some t ->
      promptApiState (app w) = LOADING
      /\ currentPage (app w) = promptInput
      /\ S n = List.length (promptCalls w))
  /\ (currentPage (app w) = imageDisplay -> promptApiState (app w) = SUCCESS).

(** A run of inputs, one after the other. *)
Definition driveAll (w : World) (run : list Input) : World :=
  fold_left drive run w.

(** Whether the input, arriving in [w], is the settling of a prompt call
    in flight with success. *)
Definition promptSucceeds (w : World) (i : Input) : bool :=
  match i with
  | PromptAnswered n answers =>
      match inFlight (promptCalls w) (promptSettled w) n with
      | Some t =>
          match outcome (generateColoringBookPrompt t) answers with
          | Some (Fulfilled _) => true
          | _ => false
          end
      | None => false
      end
  | _ => false
  end.

(** How many prompt calls settle with success along a run. *)
Fixpoint successes (w : World) (run : list Input) : nat :=
  match run with
  | [] => 0
  | i :: rest =>
      (if promptSucceeds w i then 1 else 0) + successes (drive w i) rest
  end.

End Driven.

Import Dictation Panels Driven.

(* ------------------------------------------------------------------ *)
(** ** A run in which the user goes back while the images are drawn *)

Module StaleRun.

Definition firstPrompt : list Input :=
  [ UserGesture (TypeTranscript false (lit "a cat"));
    UserGesture (ClickGenerate false []);
    PromptAnswered 0 [Sample.textAnswer "a cute cat"] ].

Definition secondPrompt : list Input :=
  [ UserGesture (TypeTranscript false (lit "a dog"));
    UserGesture (ClickGenerate false []);
    PromptAnswered 1 [Sample.textAnswer "a cute dog"] ].

(** The answers to the two requests of the first image call. *)
Definition catImages : list Answer :=
  [ Sample.imageAnswer "image/png" "AAAA";
    Sample.imageAnswer "image/png" "BBBB" ].

(** The first image call is in flight on the image page. *)
Definition onImagePage : World := driveAll mounted firstPrompt.

(** The user goes back before it settles. *)
Definition wentBack : World := drive onImagePage (UserGesture ClickBack).

(** It settles while the prompt page is shown. *)
Definition lateSuccess : World := drive wentBack (ImageAnswered 0 catImages).

Definition lateFailure : World :=
  drive wentBack (ImageAnswered 0 [Sample.failure "quota exceeded"]).

(** Or the user submits another idea first, and the first image call
    settles while the second one is in flight. *)
Definition regenerating : World := driveAll wentBack secondPrompt.

Definition staleShown : World := drive regenerating (ImageAnswered 0 catImages).

Definition staleSelected : World := drive staleShown (UserGesture (ClickImage 0)).

End StaleRun.


(* ------------------------------------------------------------------ *)
(** ** Basic facts about the embedding *)

Section JsFacts.

Lemma jsstring_eqb_eq (a b : jsstring) : Js.eqb a b = true <-> a = b.
Proof.
  revert b; induction a as [|x a IH]; intros [|y b]; simpl;
    try (split; [discriminate | congruence]); try tauto.
  rewrite andb_true_iff, N.eqb_eq, IH.
  split; [intros [-> ->]; reflexivity | intros H; inversion H; auto].
Qed.

Lemma jsstring_eqb_refl (a : jsstring) : Js.eqb a a = true.
Proof. apply jsstring_eqb_eq; reflexivity. Qed.

Lemma jsstring_eqb_neq (a b : jsstring) : Js.eqb a b = false <-> a <> b.
Proof.
  rewrite <- jsstring_eqb_eq. destruct (Js.eqb a b); split; congruence.
Qed.

Lemma includes_In (l : list jsstring) (x : jsstring) :
  includes l x = true <-> In x l.
Proof.
  unfold includes. rewrite existsb_exists. split.
  - intros [y [Hy He]]. apply jsstring_eqb_eq in He. subst; assumption.
  - intros H. exists x. split; [assumption | apply jsstring_eqb_refl].
Qed.

Lemma includes_not_In (l : list jsstring) (x : jsstring) :
  includes l x = false <-> ~ In x l.
Proof.
  rewrite <- includes_In. destruct (includes l x); split; congruence.
Qed.

Lemma truthy_nonempty (s : jsstring) : truthy s = true <-> s <> [].
Proof. destruct s; simpl; split; congruence. Qed.

Lemma ApiState_eqb_eq (a b : ApiState) : ApiState_eqb a b = true <-> a = b.
Proof. destruct a, b; simpl; split; congruence. Qed.

Lemma Page_eqb_eq (a b : Page) : Page_eqb a b = true <-> a = b.
Proof. destruct a, b; simpl; split; congruence. Qed.

End JsFacts.

Section ToggleFacts.

Variable url : jsstring.

Let other (selectedUrl : jsstring) : bool := negb (Js.eqb selectedUrl url).

Lemma filter_other_absent (l : list jsstring) :
  ~ In url l -> filter other l = l.
Proof.
  induction l as [|y l IH]; simpl; intros H; [reflexivity|].
  unfold other at 1.
  destruct (Js.eqb y url) eqn:E; simpl.
  - apply jsstring_eqb_eq in E. tauto.
  - f_equal. apply IH. tauto.
Qed.

Lemma filter_other_In (l : list jsstring) (y : jsstring) :
  In y (filter other l) <-> In y l /\ y <> url.
Proof.
  rewrite filter_In. unfold other.
  rewrite negb_true_iff, jsstring_eqb_neq. tauto.
Qed.

Lemma toggle_absent (l : list jsstring) :
  ~ In url l -> toggle url l = l ++ [url].
Proof.
  intros H. unfold toggle. apply includes_not_In in H. rewrite H. reflexivity.
Qed.

Lemma toggle_present (l : list jsstring) :
  In url l -> toggle url l = filter other l.
Proof.
  intros H. unfold toggle. apply includes_In in H. rewrite H. reflexivity.
Qed.

Lemma toggle_In (l : list jsstring) (y : jsstring) :
  In y (toggle url l) <->
  (In y l /\ y <> url) \/ (y = url /\ ~ In url l).
Proof.
  unfold toggle. destruct (includes l url) eqn:E.
  - apply includes_In in E. fold other. rewrite filter_other_In. tauto.
  - apply includes_not_In in E. rewrite in_app_iff. simpl.
    split.
    + intros [H | [H | []]]; [left | right]; split; auto.
      intros ->. tauto.
    + intros [[H _] | [H _]]; auto.
Qed.

Lemma toggle_NoDup (l : list jsstring) : NoDup l -> NoDup (toggle url l).
Proof.
  intros H. unfold toggle. destruct (includes l url) eqn:E.
  - apply NoDup_filter. assumption.
  - apply includes_not_In in E.
    apply NoDup_app; [assumption | repeat constructor; simpl; tauto |].
    intros a Ha [<- | []]. tauto.
Qed.

Lemma toggle_toggle_absent (l : list jsstring) :
  ~ In url l -> toggle url (toggle url l) = l.
Proof.
  intros H. rewrite (toggle_absent l H).
  rewrite toggle_present by (apply in_or_app; right; left; reflexivity).
  rewrite filter_app, (filter_other_absent l H). simpl.
  unfold other. rewrite jsstring_eqb_refl. simpl. apply app_nil_r.
Qed.

Lemma toggle_toggle_present (l : list jsstring) :
  In url l -> toggle url (toggle url l) = filter other l ++ [url].
Proof.
  intros H. rewrite (toggle_present l H).
  apply toggle_absent. rewrite filter_other_In. tauto.
Qed.

End ToggleFacts.

(* ------------------------------------------------------------------ *)
(** ** The render after a batch *)

Section CommitFacts.

Lemma depsChanged_same (prev next : AppState) :
  generatedPrompt prev = generatedPrompt next ->
  promptApiState prev = promptApiState next ->
  currentPage prev = currentPage next ->
  depsChanged prev next = false.
Proof.
  intros Hg Hp Hc. unfold depsChanged. rewrite Hg, Hp, Hc.
  rewrite jsstring_eqb_refl.
  destruct (promptApiState next), (currentPage next); reflexivity.
Qed.

Lemma commit_same_deps (prev : AppState) (w : World) :
  generatedPrompt prev = generatedPrompt (app w) ->
  promptApiState prev = promptApiState (app w) ->
  currentPage prev = currentPage (app w) ->
  commit prev w = w.
Proof.
  intros Hg Hp Hc. unfold commit.
  rewrite (depsChanged_same prev (app w) Hg Hp Hc). reflexivity.
Qed.

Lemma handleGenerateImage_guard (w : World) :
  promptApiState (app w) <> SUCCESS \/ currentPage (app w) <> imageDisplay ->
  handleGenerateImage w = w.
Proof.
  intros H. unfold handleGenerateImage.
  destruct (promptApiState (app w)), (currentPage (app w)),
    (truthy (generatedPrompt (app w))); simpl; try reflexivity;
    destruct H; congruence.
Qed.

Lemma commit_guard (prev : AppState) (w : World) :
  promptApiState (app w) <> SUCCESS \/ currentPage (app w) <> imageDisplay ->
  commit prev w = w.
Proof.
  intros H. unfold commit. rewrite (handleGenerateImage_guard w H).
  destruct (depsChanged prev (app w)); reflexivity.
Qed.

(** When the effect starts an image call, the rendered state it read
    had a successful, non-empty prompt on the image page. *)
Lemma handleGenerateImage_cases (w : World) :
  handleGenerateImage w = w
  \/ (promptApiState (app w) = SUCCESS
      /\ currentPage (app w) = imageDisplay
      /\ generatedPrompt (app w) <> []
      /\ handleGenerateImage w =
         (setError None ;; setImageApiState LOADING ;; setImageUrls None ;;
          setSelectedImageUrls (fun _ => []) ;;
          callImage (generatedPrompt (app w)))%handler w).
Proof.
  unfold handleGenerateImage.
  destruct (ApiState_eqb (promptApiState (app w)) SUCCESS) eqn:E1; simpl; auto.
  destruct (truthy (generatedPrompt (app w))) eqn:E2; simpl; auto.
  destruct (Page_eqb (currentPage (app w)) imageDisplay) eqn:E3; simpl; auto.
  right. apply ApiState_eqb_eq in E1. apply Page_eqb_eq in E3.
  apply truthy_nonempty in E2. auto.
Qed.

Lemma dispatch_EditTranscript (w : World) (text : jsstring) :
  dispatch w (EditTranscript text) = setTranscript text w.
Proof. unfold dispatch. apply commit_same_deps; reflexivity. Qed.

Lemma dispatch_ToggleSelection (w : World) (url : jsstring) :
  dispatch w (ToggleSelection url) = handleToggleImageSelection url w.
Proof. unfold dispatch. apply commit_same_deps; reflexivity. Qed.

Lemma dispatch_RequestPrint (w : World) : dispatch w RequestPrint = w.
Proof. unfold dispatch. apply commit_same_deps; reflexivity. Qed.

Lemma dispatch_GoBack (w : World) :
  dispatch w GoBack = handleBackToPromptInput w.
Proof. unfold dispatch. apply commit_guard. right. simpl. discriminate. Qed.

Lemma dispatch_SubmitPrompt (w : World) :
  dispatch w SubmitPrompt = handleGeneratePrompt w.
Proof.
  unfold dispatch. apply commit_guard. left.
  simpl. unfold handleGeneratePrompt.
  destruct (negb (truthy (trim (transcript (app w))))); simpl; discriminate.
Qed.

Lemma dispatch_ImageSettled (w : World) (n : nat) (answers : list Answer) :
  dispatch w (ImageSettled n answers) = handle (ImageSettled n answers) w.
Proof.
  unfold dispatch. apply commit_same_deps; simpl;
    destruct (inFlight (imageCalls w) (imageSettled w) n); try reflexivity;
    destruct (outcome _ answers) as [[urls|err]|]; reflexivity.
Qed.

End CommitFacts.

(* ------------------------------------------------------------------ *)
(** ** Selection *)

Section Selection.

(** The selection after an event is the one before, or the empty one,
    or the toggled one. *)
Lemma commit_selected (prev : AppState) (w : World) :
  selectedImageUrls (app (commit prev w)) = selectedImageUrls (app w)
  \/ selectedImageUrls (app (commit prev w)) = [].
Proof.
  unfold commit. destruct (depsChanged prev (app w)); auto.
  destruct (handleGenerateImage_cases w) as [-> | (_ & _ & _ & ->)]; auto.
Qed.

Lemma handle_selected (w : World) (e : Event) :
  selectedImageUrls (app (handle e w)) = selectedImageUrls (app w)
  \/ selectedImageUrls (app (handle e w)) = []
  \/ exists url, e = ToggleSelection url
       /\ selectedImageUrls (app (handle e w))
          = toggle url (selectedImageUrls (app w)).
Proof.
  destruct e as [text | | n answers | n answers | url | |]; simpl; auto.
  - unfold handleGeneratePrompt.
    destruct (negb (truthy (trim (transcript (app w))))); auto.
  - destruct (inFlight (promptCalls w) (promptSettled w) n); auto.
    destruct (outcome _ answers) as [[p|err]|]; auto.
  - destruct (inFlight (imageCalls w) (imageSettled w) n); auto.
    destruct (outcome _ answers) as [[urls|err]|]; auto.
  - right; right. exists url. auto.
Qed.

Lemma dispatch_selected (w : World) (e : Event) :
  selectedImageUrls (app (dispatch w e)) = selectedImageUrls (app w)
  \/ selectedImageUrls (app (dispatch w e)) = []
  \/ exists url, e = ToggleSelection url
       /\ selectedImageUrls (app (dispatch w e))
          = toggle url (selectedImageUrls (app w)).
Proof.
  destruct e as [text | | n answers | n answers | url | |];
    try (right; right; exists url; split; [reflexivity|];
         rewrite dispatch_ToggleSelection; reflexivity);
    unfold dispatch;
    match goal with
    | |- context [commit ?p (handle ?e w)] =>
        destruct (commit_selected p (handle e w)) as [-> | ->]; auto;
        destruct (handle_selected w e) as [-> | [-> | (u & Hu & _)]];
        auto; discriminate Hu
    end.
Qed.

End Selection.

(** C5, as amended.  Two consecutive [ToggleSelection x] events leave
    [images] alone and return [selected] to the same set of locators.
    The sequence is the original one when [x] was not selected at the
    start; when [x] was selected, the result is the original sequence
    with [x] removed and appended at the end. *)
Theorem toggle_twice_same_members (w : World) (x : jsstring) :
  let sel := selectedImageUrls (app w) in
  let w2 := dispatch (dispatch w (ToggleSelection x)) (ToggleSelection x) in
  let sel2 := selectedImageUrls (app w2) in
  imageUrls (app w2) = imageUrls (app w)
  /\ (forall y, In y sel2 <-> In y sel)
  /\ (~ In x sel -> sel2 = sel)
  /\ (In x sel ->
      sel2 = filter (fun selectedUrl => negb (Js.eqb selectedUrl x)) sel ++ [x]).
Proof.
  intros sel w2 sel2.
  assert (E : sel2 = toggle x (toggle x sel)).
  { unfold sel2, w2. rewrite !dispatch_ToggleSelection. reflexivity. }
  split; [unfold w2; rewrite !dispatch_ToggleSelection; reflexivity|].
  split; [|split].
  - intros y. rewrite E. destruct (includes sel x) eqn:Ex.
    + apply includes_In in Ex. rewrite (toggle_toggle_present x sel Ex).
      rewrite in_app_iff, filter_other_In. simpl.
      destruct (Js.eqb y x) eqn:Eyx.
      * apply jsstring_eqb_eq in Eyx. subst y. tauto.
      * apply jsstring_eqb_neq in Eyx.
        split; [intros [[H _] | [H | []]]; [assumption | congruence] | tauto].
    + apply includes_not_In in Ex. rewrite (toggle_toggle_absent x sel Ex).
      tauto.
  - intros H. rewrite E. apply toggle_toggle_absent. assumption.
  - intros H. rewrite E. apply toggle_toggle_present. assumption.
Qed.

Lemma toggle_twice_witness :
  let w := runEvents Sample.afterScenario1
             [ToggleSelection Sample.imgA; ToggleSelection Sample.imgB] in
  let w2 := dispatch (dispatch w (ToggleSelection Sample.imgA))
              (ToggleSelection Sample.imgA) in
  In Sample.imgA (selectedImageUrls (app w))
  /\ selectedImageUrls (app w2)
     = filter (fun selectedUrl => negb (Js.eqb selectedUrl Sample.imgA))
         (selectedImageUrls (app w)) ++ [Sample.imgA].
Proof.
  assert (H : In Sample.imgA
                (selectedImageUrls
                   (app (runEvents Sample.afterScenario1
                           [ToggleSelection Sample.imgA;
                            ToggleSelection Sample.imgB]))))
    by (vm_compute; left; reflexivity).
  split; [exact H|].
  exact (proj2 (proj2 (proj2
           (toggle_twice_same_members
              (runEvents Sample.afterScenario1
                 [ToggleSelection Sample.imgA; ToggleSelection Sample.imgB])
              Sample.imgA))) H).
Defined.

(** C5 as stated fails: with [imgA; imgB] selected in the end state of
    Scenario 1, toggling [imgA] twice yields [imgB; imgA]. *)
Lemma toggle_twice_changes_order :
  let w := runEvents Sample.afterScenario1
             [ToggleSelection Sample.imgA; ToggleSelection Sample.imgB] in
  let w2 := runEvents w [ToggleSelection Sample.imgA; ToggleSelection Sample.imgA] in
  imageApiState (app w) = SUCCESS
  /\ imageUrls (app w) = Some [Sample.imgA; Sample.imgB]
  /\ imageUrls (app w2) = imageUrls (app w)
  /\ selectedImageUrls (app w) = [Sample.imgA; Sample.imgB]
  /\ selectedImageUrls (app w2) = [Sample.imgB; Sample.imgA]
  /\ selectedImageUrls (app w2) <> selectedImageUrls (app w).
Proof. vm_compute. repeat split; try reflexivity. discriminate. Qed.


(** C10.  In every reachable state [selected] has no duplicates: an
    event leaves it as it was, or empties it, or is a [ToggleSelection]
    that removes the locator when present and appends it only when
    absent. *)
Theorem selected_has_no_duplicates :
  (forall w : World, Reachable w -> NoDup (selectedImageUrls (app w)))
  /\ (forall (w : World) (e : Event),
        selectedImageUrls (app (dispatch w e)) = selectedImageUrls (app w)
        \/ selectedImageUrls (app (dispatch w e)) = []
        \/ exists url, e = ToggleSelection url
             /\ (In url (selectedImageUrls (app w)) ->
                 ~ In url (selectedImageUrls (app (dispatch w e))))
             /\ (~ In url (selectedImageUrls (app w)) ->
                 selectedImageUrls (app (dispatch w e))
                 = selectedImageUrls (app w) ++ [url])).
Proof.
  split.
  - intros w H. induction H as [| w e H IH].
    + vm_compute. constructor.
    + destruct (dispatch_selected w e) as [-> | [-> | (u & _ & ->)]].
      * assumption.
      * constructor.
      * apply toggle_NoDup. assumption.
  - intros w e.
    destruct (dispatch_selected w e) as [H | [H | (u & Hu & H)]]; auto.
    right; right. exists u. split; [assumption|]. rewrite H. split.
    + intros Hin. rewrite toggle_In. tauto.
    + apply toggle_absent.
Qed.

(* ------------------------------------------------------------------ *)
(** ** Navigation and submission *)

(** C6.  [GoBack] shows the prompt page, clears [images], [imageStatus]
    and [selected], and leaves [transcript], [promptStatus] and
    [refinedPrompt] (and the error text and the client calls) as they
    were. *)
Theorem go_back_resets_images_only (w : World) :
  let w' := dispatch w GoBack in
  currentPage (app w') = promptInput
  /\ imageUrls (app w') = None
  /\ imageApiState (app w') = IDLE
  /\ selectedImageUrls (app w') = []
  /\ transcript (app w') = transcript (app w)
  /\ promptApiState (app w') = promptApiState (app w)
  /\ generatedPrompt (app w') = generatedPrompt (app w)
  /\ error (app w') = error (app w)
  /\ promptCalls w' = promptCalls w
  /\ imageCalls w' = imageCalls w.
Proof.
  intros w'. unfold w'. rewrite dispatch_GoBack.
  repeat split; reflexivity.
Qed.

(** C2.  With a transcript that trims to the empty string,
    [SubmitPrompt] on the prompt page stays on the prompt page, sets
    [promptStatus = Failed] with an error message, and calls neither
    client. *)
Theorem submit_blank_transcript_fails_locally (w : World)
    (Hblank : trim (transcript (app w)) = [])
    (Hpage : currentPage (app w) = promptInput) :
  let w' := dispatch w SubmitPrompt in
  currentPage (app w') = promptInput
  /\ promptApiState (app w') = ERROR
  /\ error (app w') = Some (lit "Please enter an idea to generate a prompt.")
  /\ promptCalls w' = promptCalls w
  /\ imageCalls w' = imageCalls w.
Proof.
  intros w'. unfold w'. rewrite dispatch_SubmitPrompt.
  unfold handleGeneratePrompt. rewrite Hblank. simpl.
  repeat split; try reflexivity. assumption.
Qed.

Lemma submit_blank_transcript_witness :
  let w := dispatch mounted (EditTranscript (lit "  ")) in
  let w' := dispatch w SubmitPrompt in
  currentPage (app w') = promptInput
  /\ promptApiState (app w') = ERROR
  /\ error (app w') = Some (lit "Please enter an idea to generate a prompt.")
  /\ promptCalls w' = promptCalls w
  /\ imageCalls w' = imageCalls w.
Proof.
  exact (submit_blank_transcript_fails_locally
           (dispatch mounted (EditTranscript (lit "  ")))
           eq_refl eq_refl).
Defined.


(* ------------------------------------------------------------------ *)
(** ** The clients *)

Section ClientFacts.

Lemma generateColoringBookPrompt_outcome (transcript : jsstring)
    (answers : list Answer) :
  outcome (generateColoringBookPrompt transcript) answers =
  match answers with
  | [] => None
  | Rejected e :: _ => Some (promptFailure (describe e))
  | Fulfilled response :: _ =>
      match text response with
      | Some t =>
          if truthy (trim t) then Some (Fulfilled (trim t))
          else Some (promptFailure (lit "Gemini did not return a valid prompt text."))
      | None =>
          Some (promptFailure (lit "Gemini did not return a valid prompt text."))
      end
  end.
Proof.
  destruct answers as [|[response|e] rest]; try reflexivity.
  unfold outcome, generateColoringBookPrompt. cbn [generateContent bind tryCatch run].
  destruct (text response) as [t|]; cbn [option_map]; [|reflexivity].
  destruct (truthy (trim t)); reflexivity.
Qed.

Lemma generateColoringBookPrompt_nonempty (transcript : jsstring)
    (answers : list Answer) (prompt : jsstring) :
  outcome (generateColoringBookPrompt transcript) answers = Some (Fulfilled prompt) ->
  prompt <> [].
Proof.
  rewrite generateColoringBookPrompt_outcome.
  destruct answers as [|[response|e] rest]; try discriminate.
  destruct (text response) as [t|]; try discriminate.
  destruct (truthy (trim t)) eqn:E; try discriminate.
  intros H. inversion H; subst. apply truthy_nonempty. assumption.
Qed.

Lemma generateColoringBookImage_run (prompt : jsstring) (answers : list Answer) :
  run (generateColoringBookImage prompt) answers =
  let request1 := imageRequest (prompt ++ comicSuffix) in
  let request2 := imageRequest (prompt ++ doodleSuffix) in
  match answers with
  | [] => (None, [request1])
  | a1 :: rest =>
      match imageOf a1 with
      | Rejected e => (Some (imageFailure (describe e)), [request1])
      | Fulfilled url1 =>
          match rest with
          | [] => (None, [request1; request2])
          | a2 :: _ =>
              match imageOf a2 with
              | Rejected e =>
                  (Some (imageFailure (describe e)), [request1; request2])
              | Fulfilled url2 =>
                  (Some (Fulfilled [url1; url2]), [request1; request2])
              end
          end
      end
  end.
Proof.
  destruct answers as [|[r1|e1] rest]; try reflexivity.
  unfold generateColoringBookImage.
  cbn [generateContent bind tryCatch run imageOf].
  destruct (extractImageUrl r1) as [url1|e1]; [|reflexivity].
  cbn [ofSettled generateContent bind tryCatch run].
  destruct rest as [|[r2|e2] rest]; try reflexivity.
  cbn [ofSettled generateContent bind tryCatch run imageOf].
  destruct (extractImageUrl r2) as [url2|e2]; reflexivity.
Qed.

End ClientFacts.

(* ------------------------------------------------------------------ *)
(** ** Starting the image call *)

Section ImageStart.

(** No handler sets [imageApiState] to [LOADING]; only the effect does. *)
Lemma handle_not_LOADING (w : World) (e : Event) :
  imageApiState (app (handle e w)) = LOADING ->
  imageApiState (app w) = LOADING.
Proof.
  destruct e as [text | | n answers | n answers | url | |]; simpl; auto;
    try discriminate.
  - unfold handleGeneratePrompt.
    destruct (negb (truthy (trim (transcript (app w))))); simpl; discriminate.
  - destruct (inFlight (promptCalls w) (promptSettled w) n); auto.
    destruct (outcome _ answers) as [[p|err]|]; auto.
  - destruct (inFlight (imageCalls w) (imageSettled w) n); auto.
    destruct (outcome _ answers) as [[urls|err]|]; simpl; auto; discriminate.
Qed.

(** No handler starts an image call; only the effect does. *)
Lemma handle_imageCalls (w : World) (e : Event) :
  imageCalls (handle e w) = imageCalls w.
Proof.
  destruct e as [text | | n answers | n answers | url | |]; simpl; auto.
  - unfold handleGeneratePrompt.
    destruct (negb (truthy (trim (transcript (app w))))); reflexivity.
  - destruct (inFlight (promptCalls w) (promptSettled w) n); auto.
    destruct (outcome _ answers) as [[p|err]|]; auto.
  - destruct (inFlight (imageCalls w) (imageSettled w) n); auto.
    destruct (outcome _ answers) as [[urls|err]|]; auto.
Qed.

(** An event either runs no effect body, or renders a successful
    prompt on the image page and starts one image call for it. *)
Lemma dispatch_cases (w : World) (e : Event) :
  dispatch w e = handle e w
  \/ (promptApiState (app (handle e w)) = SUCCESS
      /\ currentPage (app (handle e w)) = imageDisplay
      /\ generatedPrompt (app (handle e w)) <> []
      /\ dispatch w e =
         (setError None ;; setImageApiState LOADING ;; setImageUrls None ;;
          setSelectedImageUrls (fun _ => []) ;;
          callImage (generatedPrompt (app (handle e w))))%handler (handle e w)).
Proof.
  unfold dispatch, commit.
  destruct (depsChanged (app w) (app (handle e w))); auto.
  destruct (handleGenerateImage_cases (handle e w)) as [-> | H]; auto.
Qed.

(** Only the settling of a prompt call starts an image call. *)
Lemma image_call_needs_prompt_settled (w : World) (e : Event) :
  (forall n answers, e <> PromptSettled n answers) ->
  imageCalls (dispatch w e) = imageCalls w.
Proof.
  intros H.
  destruct e as [text | | n answers | n answers | url | |].
  - rewrite dispatch_EditTranscript. reflexivity.
  - rewrite dispatch_SubmitPrompt. apply (handle_imageCalls w SubmitPrompt).
  - exfalso. apply (H n answers). reflexivity.
  - rewrite dispatch_ImageSettled. apply handle_imageCalls.
  - rewrite dispatch_ToggleSelection. reflexivity.
  - rewrite dispatch_RequestPrint. reflexivity.
  - rewrite dispatch_GoBack. reflexivity.
Qed.

End ImageStart.

(** C8.  When an event moves [imageStatus] to [InFlight], the state
    rendered by that event, which is the one the effect reads, has
    [promptStatus = Succeeded] and [screen = ImageScreen]; both still
    hold once the image call has been started, and the call is for the
    refined prompt of that state. *)
Theorem image_in_flight_only_after_prompt_success (w : World) (e : Event)
    (Hbefore : imageApiState (app w) <> LOADING)
    (Hafter : imageApiState (app (dispatch w e)) = LOADING) :
  let rendered := app (handle e w) in
  let w' := dispatch w e in
  promptApiState rendered = SUCCESS
  /\ currentPage rendered = imageDisplay
  /\ promptApiState (app w') = SUCCESS
  /\ currentPage (app w') = imageDisplay
  /\ imageCalls w' = imageCalls w ++ [generatedPrompt (app w')].
Proof.
  intros rendered w'. unfold rendered, w'.
  destruct (dispatch_cases w e) as [E | (Hp & Hc & _ & E)].
  - rewrite E in Hafter. apply handle_not_LOADING in Hafter. contradiction.
  - rewrite E. simpl. rewrite (handle_imageCalls w e). auto.
Qed.

Lemma image_in_flight_witness :
  let w := runEvents mounted [EditTranscript (lit "a cat"); SubmitPrompt] in
  let e := PromptSettled 0 [Sample.textAnswer "a cute cat"] in
  (imageApiState (app w) <> LOADING
   /\ imageApiState (app (dispatch w e)) = LOADING)
  /\ promptApiState (app (handle e w)) = SUCCESS
  /\ currentPage (app (handle e w)) = imageDisplay
  /\ promptApiState (app (dispatch w e)) = SUCCESS
  /\ currentPage (app (dispatch w e)) = imageDisplay
  /\ imageCalls (dispatch w e)
     = imageCalls w ++ [generatedPrompt (app (dispatch w e))].
Proof.
  assert (Hbefore : imageApiState
                      (app (runEvents mounted
                              [EditTranscript (lit "a cat"); SubmitPrompt]))
                    <> LOADING) by (vm_compute; discriminate).
  assert (Hafter : imageApiState
                     (app (dispatch
                             (runEvents mounted
                                [EditTranscript (lit "a cat"); SubmitPrompt])
                             (PromptSettled 0 [Sample.textAnswer "a cute cat"])))
                   = LOADING) by reflexivity.
  split; [split; [exact Hbefore | exact Hafter]|].
  exact (image_in_flight_only_after_prompt_success
           (runEvents mounted [EditTranscript (lit "a cat"); SubmitPrompt])
           (PromptSettled 0 [Sample.textAnswer "a cute cat"])
           Hbefore Hafter).
Defined.

(* ------------------------------------------------------------------ *)
(** ** Settling the image call *)

Section ImageSettle.

Variable w : World.
Variable n : nat.
Variable prompt : jsstring.
Hypothesis Hflight : inFlight (imageCalls w) (imageSettled w) n = Some prompt.

Lemma dispatch_ImageSettled_inFlight (answers : list Answer) :
  dispatch w (ImageSettled n answers) =
  match outcome (generateColoringBookImage prompt) answers with
  | Some result => (markImageSettled n ;; imageContinuation result)%handler w
  | None => w
  end.
Proof. rewrite dispatch_ImageSettled. simpl. rewrite Hflight. reflexivity. Qed.

End ImageSettle.

(** C7.  An image call that settles with success stores exactly two
    locators, the one of the comic-style request and then the one of the
    doodle-style request, and sets [imageStatus = Succeeded].  When the
    first request fails the second one is not issued; when either fails
    the call settles with failure, [images] is absent and
    [imageStatus = Failed]. *)
Theorem image_attempt_two_or_nothing (w : World) (n : nat) (prompt : jsstring)
    (answers : list Answer)
    (Hflight : inFlight (imageCalls w) (imageSettled w) n = Some prompt) :
  let client := generateColoringBookImage prompt in
  let comic := imageRequest (prompt ++ comicSuffix) in
  let doodle := imageRequest (prompt ++ doodleSuffix) in
  let w' := dispatch w (ImageSettled n answers) in
  (forall urls,
      outcome client answers = Some (Fulfilled urls) ->
      exists a1 a2 rest urlA urlB,
        answers = a1 :: a2 :: rest
        /\ imageOf a1 = Fulfilled urlA
        /\ imageOf a2 = Fulfilled urlB
        /\ requests client answers = [comic; doodle]
        /\ urls = [urlA; urlB]
        /\ imageUrls (app w') = Some [urlA; urlB]
        /\ imageApiState (app w') = SUCCESS)
  /\ (forall a1 rest e,
        answers = a1 :: rest ->
        imageOf a1 = Rejected e ->
        outcome client answers = Some (imageFailure (describe e))
        /\ requests client answers = [comic]
        /\ imageUrls (app w') = None
        /\ imageApiState (app w') = ERROR
        /\ error (app w')
           = Some (lit "Failed to generate image: "
                     ++ lit "Failed to generate image: " ++ describe e))
  /\ (forall a1 a2 rest urlA e,
        answers = a1 :: a2 :: rest ->
        imageOf a1 = Fulfilled urlA ->
        imageOf a2 = Rejected e ->
        outcome client answers = Some (imageFailure (describe e))
        /\ requests client answers = [comic; doodle]
        /\ imageUrls (app w') = None
        /\ imageApiState (app w') = ERROR
        /\ error (app w')
           = Some (lit "Failed to generate image: "
                     ++ lit "Failed to generate image: " ++ describe e)).
Proof.
  intros client comic doodle w'. unfold w', client, comic, doodle.
  rewrite (dispatch_ImageSettled_inFlight w n Hflight answers).
  unfold outcome, requests. rewrite generateColoringBookImage_run.
  cbv zeta. split; [|split].
  - intros urls H.
    destruct answers as [|a1 [|a2 rest]]; simpl in H |- *;
      try discriminate;
      destruct (imageOf a1) as [urlA|e1] eqn:E1; simpl in H |- *;
      try discriminate.
    destruct (imageOf a2) as [urlB|e2] eqn:E2; simpl in H |- *;
      try discriminate.
    inversion H; subst urls.
    exists a1, a2, rest, urlA, urlB. repeat split; auto.
  - intros a1 rest e -> E1. rewrite E1. simpl. repeat split; reflexivity.
  - intros a1 a2 rest urlA e -> E1 E2. rewrite E1, E2. simpl.
    repeat split; reflexivity.
Qed.

Lemma image_attempt_two_or_nothing_witness :
  let w := runEvents mounted
             [EditTranscript (lit "a cat"); SubmitPrompt;
              PromptSettled 0 [Sample.textAnswer "a cute cat"]] in
  let answers := [Sample.imageAnswer "image/png" "AAAA";
                  Sample.imageAnswer "image/png" "BBBB"] in
  inFlight (imageCalls w) (imageSettled w) 0 = Some (lit "a cute cat")
  /\ imageUrls (app (dispatch w (ImageSettled 0 answers)))
     = Some [Sample.imgA; Sample.imgB].
Proof.
  split; [reflexivity|].
  destruct (proj1 (image_attempt_two_or_nothing
                     (runEvents mounted
                        [EditTranscript (lit "a cat"); SubmitPrompt;
                         PromptSettled 0 [Sample.textAnswer "a cute cat"]])
                     0
                     [Sample.imageAnswer "image/png" "AAAA";
                      Sample.imageAnswer "image/png" "BBBB"]
                     (prompt := lit "a cute cat") eq_refl)
              [Sample.imgA; Sample.imgB] eq_refl)
    as (a1 & a2 & rest & urlA & urlB & Ha & H1 & H2 & _ & Hu & Hw & _).
  rewrite Hw. f_equal. symmetry. exact Hu.
Defined.

(* ------------------------------------------------------------------ *)
(** ** Calls in flight *)

Section InFlight.

Lemma inFlight_lt (calls : list jsstring) (settled : list nat) (n : nat)
    (c : jsstring) :
  inFlight calls settled n = Some c -> n < List.length calls.
Proof.
  unfold inFlight. destruct (existsb (Nat.eqb n) settled); [discriminate|].
  intros H. apply nth_error_Some. congruence.
Qed.

Lemma inFlight_fresh (calls : list jsstring) (settled : list nat) (c : jsstring) :
  (forall n, In n settled -> n < List.length calls) ->
  inFlight (calls ++ [c]) settled (List.length calls) = Some c.
Proof.
  intros H. unfold inFlight.
  destruct (existsb (Nat.eqb (List.length calls)) settled) eqn:E.
  - apply existsb_exists in E. destruct E as (m & Hm & Heq).
    apply Nat.eqb_eq in Heq. subst m. apply H in Hm. lia.
  - rewrite nth_error_app2 by lia. rewrite Nat.sub_diag. reflexivity.
Qed.

Lemma handle_settledInRange (w : World) (e : Event) :
  settledInRange w -> settledInRange (handle e w).
Proof.
  intros [Hp Hi].
  destruct e as [text | | n answers | n answers | url | |]; simpl;
    try (split; assumption).
  - unfold handleGeneratePrompt.
    destruct (negb (truthy (trim (transcript (app w))))); simpl;
      [split; assumption|].
    split; [|assumption]. simpl. intros n Hn. rewrite length_app. simpl.
    apply Hp in Hn. lia.
  - destruct (inFlight (promptCalls w) (promptSettled w) n) as [t|] eqn:E;
      [|split; assumption].
    apply inFlight_lt in E.
    destruct (outcome _ answers) as [[p|err]|]; simpl;
      try (split; assumption);
      (split; [|assumption]); simpl; intros m [<- | Hm]; auto.
  - destruct (inFlight (imageCalls w) (imageSettled w) n) as [p|] eqn:E;
      [|split; assumption].
    apply inFlight_lt in E.
    destruct (outcome _ answers) as [[urls|err]|]; simpl;
      try (split; assumption);
      (split; [assumption|]); simpl; intros m [<- | Hm]; auto.
Qed.

Lemma dispatch_settledInRange (w : World) (e : Event) :
  settledInRange w -> settledInRange (dispatch w e).
Proof.
  intros H. apply (handle_settledInRange e) in H.
  destruct (dispatch_cases w e) as [-> | (_ & _ & _ & ->)]; [assumption|].
  destruct H as [Hp Hi]. split; simpl; [assumption|].
  intros n Hn. rewrite length_app. simpl. apply Hi in Hn. lia.
Qed.

Lemma reachable_settledInRange (w : World) :
  Reachable w -> settledInRange w.
Proof.
  induction 1 as [| w e _ IH].
  - split; simpl; intros n [].
  - apply dispatch_settledInRange. assumption.
Qed.

End InFlight.

(* ------------------------------------------------------------------ *)
(** ** Settling the prompt call *)

Section PromptSettle.

Variable w : World.
Variable n : nat.
Variable transcript : jsstring.
Variable answers : list Answer.
Variable result : Settled jsstring.
Hypothesis Hflight : inFlight (promptCalls w) (promptSettled w) n = Some transcript.
Hypothesis Hloading : promptApiState (app w) = LOADING.
Hypothesis Hsettles :
  outcome (generateColoringBookPrompt transcript) answers = Some result.

(** The prompt call settles while [promptApiState] is [LOADING]: one
    batch for the continuation, then, on success, the effect. *)
Lemma dispatch_PromptSettled_loading :
  dispatch w (PromptSettled n answers) =
  match result with
  | Fulfilled prompt =>
      (markPromptSettled n ;; promptContinuation (Fulfilled prompt) ;;
       setError None ;; setImageApiState LOADING ;; setImageUrls None ;;
       setSelectedImageUrls (fun _ => []) ;; callImage prompt)%handler w
  | Rejected err =>
      (markPromptSettled n ;; promptContinuation (Rejected err))%handler w
  end.
Proof.
  unfold dispatch. simpl handle. rewrite Hflight, Hsettles.
  destruct result as [prompt | err].
  - pose proof (generateColoringBookPrompt_nonempty _ _ Hsettles) as Hne.
    unfold commit, depsChanged. simpl. rewrite Hloading. simpl.
    rewrite andb_false_r. simpl.
    unfold handleGenerateImage. simpl.
    destruct prompt; [contradiction | reflexivity].
  - apply commit_guard. left. simpl. discriminate.
Qed.

End PromptSettle.

Lemma reachable_runEvents (w : World) (es : list Event) :
  Reachable w -> Reachable (runEvents w es).
Proof.
  revert w. induction es as [|e es IH]; intros w H; simpl; [assumption|].
  apply IH. constructor. assumption.
Qed.

Section PromptPending.

(** What matters to a pending prompt call survives the events that can
    come before it settles. *)
Lemma keepsPromptPending_dispatch (w : World) (e : Event) :
  keepsPromptPending e = true ->
  promptApiState (app (dispatch w e)) = promptApiState (app w)
  /\ currentPage (app (dispatch w e)) = currentPage (app w)
  /\ promptCalls (dispatch w e) = promptCalls w
  /\ promptSettled (dispatch w e) = promptSettled w
  /\ imageCalls (dispatch w e) = imageCalls w.
Proof.
  destruct e as [text | | n answers | n answers | url | |]; try discriminate;
    intros _.
  - rewrite dispatch_EditTranscript. repeat split; reflexivity.
  - rewrite dispatch_ImageSettled. simpl.
    destruct (inFlight (imageCalls w) (imageSettled w) n);
      [|repeat split; reflexivity].
    destruct (outcome _ answers) as [[urls|err]|]; repeat split; reflexivity.
  - rewrite dispatch_ToggleSelection. repeat split; reflexivity.
  - rewrite dispatch_RequestPrint. repeat split; reflexivity.
Qed.

End PromptPending.



(* ------------------------------------------------------------------ *)
(** ** More on the clients *)

Section TrimFacts.

Lemma trimStart_split (s : jsstring) :
  exists pre, s = pre ++ trimStart s /\ forallb isWhiteSpace pre = true.
Proof.
  induction s as [|c s IH]; simpl.
  - exists []. auto.
  - destruct (isWhiteSpace c) eqn:E.
    + destruct IH as (pre & Hs & Hpre). exists (c :: pre). simpl.
      rewrite E, Hpre. split; [f_equal; assumption | reflexivity].
    + exists []. auto.
Qed.

Lemma trimStart_head (s : jsstring) (c : N) (rest : jsstring) :
  trimStart s = c :: rest -> isWhiteSpace c = false.
Proof.
  induction s as [|d s IH]; simpl; [discriminate|].
  destruct (isWhiteSpace d) eqn:E; [assumption|].
  intros H. inversion H; subst. assumption.
Qed.

Lemma trimEnd_split (s : jsstring) :
  exists post, s = trimEnd s ++ post /\ forallb isWhiteSpace post = true.
Proof.
  destruct (trimStart_split (rev s)) as (pre & Hs & Hpre).
  exists (rev pre). split.
  - unfold trimEnd. rewrite <- rev_app_distr, <- Hs, rev_involutive. reflexivity.
  - rewrite forallb_forall in *. intros x Hx. apply Hpre.
    apply in_rev. assumption.
Qed.

Lemma trimEnd_last (s front : jsstring) (c : N) :
  trimEnd s = front ++ [c] -> isWhiteSpace c = false.
Proof.
  unfold trimEnd. intros H.
  apply (f_equal (@rev N)) in H. rewrite rev_involutive, rev_app_distr in H.
  simpl in H. apply trimStart_head in H. assumption.
Qed.

Lemma trim_trimmed (s : jsstring) : trim s <> [] -> trimmed (trim s).
Proof.
  intros Hne. split; [assumption|]. split.
  - intros c rest H. unfold trim in *.
    destruct (trimEnd_split (trimStart s)) as (post & Hs & _).
    rewrite H in Hs. simpl in Hs. apply trimStart_head in Hs. assumption.
  - intros front c H. unfold trim in H. apply trimEnd_last in H. assumption.
Qed.

End TrimFacts.

(** X1.  When [generateColoringBookPrompt] succeeds, its result is the
    trimmed text of the response: not empty, with no white space at
    either end.  Whatever the answer, it has sent exactly one request,
    which carries the transcript as given and the fixed system
    instruction. *)
Theorem prompt_client_returns_trimmed_text (transcript : jsstring)
    (ans : Answer) (rest : list Answer) :
  requests (generateColoringBookPrompt transcript) (ans :: rest)
  = [promptRequest transcript]
  /\ contents (promptRequest transcript) = transcript
  /\ (forall prompt,
        outcome (generateColoringBookPrompt transcript) (ans :: rest)
        = Some (Fulfilled prompt) ->
        trimmed prompt
        /\ exists response t,
             ans = Fulfilled response /\ text response = Some t
             /\ prompt = trim t).
Proof.
  split; [|split; [reflexivity|]].
  - unfold requests, generateColoringBookPrompt.
    destruct ans as [response|e]; [|reflexivity].
    cbn [generateContent bind tryCatch run].
    destruct (text response) as [t|]; cbn [option_map]; [|reflexivity].
    destruct (truthy (trim t)); reflexivity.
  - intros prompt H. rewrite generateColoringBookPrompt_outcome in H.
    destruct ans as [response|e]; [|discriminate].
    destruct (text response) as [t|] eqn:Et; [|discriminate].
    destruct (truthy (trim t)) eqn:E; [|discriminate].
    inversion H; subst prompt. split.
    + apply trim_trimmed. apply truthy_nonempty. assumption.
    + exists response, t. auto.
Qed.

Section ExtractFacts.

Lemma firstImageUrl_none (ps : list Part) :
  firstImageUrl ps = None <-> forallb (fun p => negb (qualifies p)) ps = true.
Proof.
  induction ps as [|p ps IH]; simpl; [tauto|].
  unfold qualifies at 1.
  destruct (inlineData p) as [blob|]; simpl; [|exact IH].
  destruct (mimeType blob) as [mt|]; simpl; [|exact IH].
  destruct (truthy mt); simpl; [|exact IH].
  split; discriminate.
Qed.

Lemma firstImageUrl_first (skipped : list Part) (part : Part) (rest : list Part)
    (blob : Blob) (mt : jsstring) :
  forallb (fun p => negb (qualifies p)) skipped = true ->
  inlineData part = Some blob ->
  mimeType blob = Some mt ->
  mt <> [] ->
  firstImageUrl (skipped ++ part :: rest)
  = Some (lit "data:" ++ mt ++ lit ";base64," ++ interpolate (data blob)).
Proof.
  intros Hs Hb Hm Hne. induction skipped as [|p skipped IH]; simpl.
  - rewrite Hb, Hm. apply truthy_nonempty in Hne. rewrite Hne. reflexivity.
  - simpl in Hs. apply andb_true_iff in Hs. destruct Hs as [Hp Hs].
    unfold qualifies in Hp.
    destruct (inlineData p) as [b|]; [|auto].
    destruct (mimeType b) as [m|]; [|auto].
    destruct (truthy m); [discriminate | auto].
Qed.

End ExtractFacts.

(** X2.  [extractImageUrl] looks at the parts of the first candidate
    only.  It returns the data URL of the first part that has
    [inlineData] with a non-empty [mimeType], skipping parts without
    one; a missing payload is written as the text "undefined".  It
    throws exactly when no part qualifies. *)
Theorem extractImageUrl_first_qualifying_part (response : Response) :
  (forall skipped part rest blob mt,
      firstParts response = skipped ++ part :: rest ->
      forallb (fun p => negb (qualifies p)) skipped = true ->
      inlineData part = Some blob ->
      mimeType blob = Some mt ->
      mt <> [] ->
      extractImageUrl response
      = Fulfilled (lit "data:" ++ mt ++ lit ";base64," ++ interpolate (data blob)))
  /\ (forallb (fun p => negb (qualifies p)) (firstParts response) = true <->
      extractImageUrl response
      = Rejected (ErrorObject
          (lit "Gemini did not return an image part with inlineData and mimeType.")))
  /\ (forall c others,
        candidates response = Some (c :: others) ->
        extractImageUrl response
        = extractImageUrl {| text := None; candidates := Some [c] |}).
Proof.
  split; [|split].
  - intros skipped part rest blob mt Hp Hs Hb Hm Hne.
    unfold extractImageUrl. rewrite Hp.
    rewrite (@firstImageUrl_first skipped part rest blob mt Hs Hb Hm Hne).
    reflexivity.
  - rewrite <- firstImageUrl_none. unfold extractImageUrl.
    destruct (firstImageUrl (firstParts response)); split;
      try discriminate; reflexivity.
  - intros c others H. unfold extractImageUrl, firstParts. rewrite H.
    reflexivity.
Qed.

Lemma extractImageUrl_witness :
  let response :=
    {| text := None;
       candidates := Some
         [ {| content := Some
                {| parts := Some
                     [ {| inlineData := None |};
                       {| inlineData := Some
                            {| data := Some (lit "AAAA"); mimeType := Some [] |} |};
                       {| inlineData := Some
                            {| data := None; mimeType := Some (lit "image/png") |} |} ] |} |} ] |} in
  extractImageUrl response = Fulfilled (lit "data:image/png;base64,undefined").
Proof.
  exact (proj1 (extractImageUrl_first_qualifying_part
                  {| text := None;
                     candidates := Some
                       [ {| content := Some
                              {| parts := Some
                                   [ {| inlineData := None |};
                                     {| inlineData := Some
                                          {| data := Some (lit "AAAA");
                                             mimeType := Some [] |} |};
                                     {| inlineData := Some
                                          {| data := None;
                                             mimeType := Some (lit "image/png") |} |} ] |} |} ] |})
           [ {| inlineData := None |};
             {| inlineData := Some {| data := Some (lit "AAAA"); mimeType := Some [] |} |} ]
           {| inlineData := Some {| data := None; mimeType := Some (lit "image/png") |} |}
           []
           {| data := None; mimeType := Some (lit "image/png") |}
           (lit "image/png")
           eq_refl eq_refl eq_refl eq_refl ltac:(vm_compute; discriminate)).
Defined.

(* ------------------------------------------------------------------ *)
(** ** Invariants of the component state *)

(** The cases of [handle e w], with the settled call and its outcome
    named where there is one. *)
Ltac handle_cases w e :=
  let text := fresh "text" in
  let n := fresh "n" in
  let answers := fresh "answers" in
  let url := fresh "url" in
  destruct e as [text | | n answers | n answers | url | |];
  cbn [handle];
  [ |
    unfold handleGeneratePrompt;
    destruct (negb (truthy (trim (transcript (app w))))) |
    let t := fresh "t" in
    let Hflight := fresh "Hflight" in
    let Hout := fresh "Hout" in
    destruct (inFlight (promptCalls w) (promptSettled w) n) as [t|] eqn:Hflight;
    [ destruct (outcome (generateColoringBookPrompt t) answers)
        as [[?prompt | ?err]|] eqn:Hout | ] |
    let p := fresh "p" in
    let Hflight := fresh "Hflight" in
    let Hout := fresh "Hout" in
    destruct (inFlight (imageCalls w) (imageSettled w) n) as [p|] eqn:Hflight;
    [ destruct (outcome (generateColoringBookImage p) answers)
        as [[?urls | ?err]|] eqn:Hout | ] |
    | | ].

Section StateInvariants.

Lemma generateColoringBookPrompt_trimmed (transcript : jsstring)
    (answers : list Answer) (prompt : jsstring) :
  outcome (generateColoringBookPrompt transcript) answers = Some (Fulfilled prompt) ->
  trimmed prompt.
Proof.
  rewrite generateColoringBookPrompt_outcome.
  destruct answers as [|[response|e] rest]; try discriminate.
  destruct (text response) as [t|]; try discriminate.
  destruct (truthy (trim t)) eqn:E; try discriminate.
  intros H. inversion H; subst. apply trim_trimmed.
  apply truthy_nonempty. assumption.
Qed.

Lemma generateColoringBookImage_two (prompt : jsstring) (answers : list Answer)
    (urls : list jsstring) :
  outcome (generateColoringBookImage prompt) answers = Some (Fulfilled urls) ->
  List.length urls = 2.
Proof.
  unfold outcome. rewrite generateColoringBookImage_run. cbv zeta.
  destruct answers as [|a1 [|a2 rest]]; simpl; try discriminate;
    destruct (imageOf a1); simpl; try discriminate.
  destruct (imageOf a2); simpl; try discriminate.
  intros H. inversion H. reflexivity.
Qed.

(** An invariant of the state that the handlers keep and that holds
    after the updates of the effect holds in every reachable state. *)
Lemma reachable_invariant (I : AppState -> Prop) :
  I initialState ->
  (forall w e, I (app w) -> I (app (handle e w))) ->
  (forall w, promptApiState (app w) = SUCCESS ->
             currentPage (app w) = imageDisplay ->
             I (app w) ->
             I (app ((setError None ;; setImageApiState LOADING ;;
                      setImageUrls None ;; setSelectedImageUrls (fun _ => []) ;;
                      callImage (generatedPrompt (app w)))%handler w))) ->
  forall w, Reachable w -> I (app w).
Proof.
  intros Hinit Hhandle Heffect w H. induction H as [| w e _ IH].
  - exact Hinit.
  - destruct (dispatch_cases w e) as [-> | (Hp & Hc & _ & ->)].
    + apply Hhandle. assumption.
    + apply Heffect; auto.
Qed.

Lemma imagesInvariant_reachable (w : World) :
  Reachable w -> imagesInvariant (app w).
Proof.
  apply reachable_invariant; unfold imagesInvariant.
  - simpl. split; [split; [discriminate | congruence] | discriminate].
  - intros w0 e [Hiff Hlen].
    handle_cases w0 e; simpl; auto;
      try (split; [split; [discriminate | congruence] | discriminate]).
    split; [split; [discriminate | reflexivity]|].
    intros urls0 H. inversion H; subst.
    apply (generateColoringBookImage_two _ _ Hout).
  - intros w0 _ _ _. simpl.
    split; [split; [discriminate | congruence] | discriminate].
Qed.

Lemma errorInvariant_reachable (w : World) :
  Reachable w -> errorInvariant (app w).
Proof.
  apply reachable_invariant; unfold errorInvariant.
  - simpl. intros [H | H]; discriminate.
  - intros w0 e IH.
    handle_cases w0 e; simpl; auto;
      try (intros _; eexists; split; [reflexivity | discriminate]);
      try (intros [H | H]; try discriminate; apply IH; auto).
  - intros w0 Hp _ _. simpl. rewrite Hp. intros [H | H]; discriminate.
Qed.

Lemma promptInvariant_reachable (w : World) :
  Reachable w -> promptInvariant (app w).
Proof.
  apply reachable_invariant; unfold promptInvariant.
  - simpl. discriminate.
  - intros w0 e IH.
    handle_cases w0 e; simpl; auto; try discriminate.
    intros _. apply (generateColoringBookPrompt_trimmed _ _ Hout).
  - intros w0 _ _ IH. simpl. exact IH.
Qed.

End StateInvariants.

(** X3.  In every reachable state [imageUrls] is set exactly when
    [imageApiState] is [SUCCESS], and then it holds exactly two
    locators.  So the image grid is rendered exactly when the image page
    is shown in that state, with two tiles; in every other state no tile
    is rendered. *)
Theorem images_present_iff_succeeded_and_two (w : World) (Hreach : Reachable w) :
  (imageApiState (app w) = SUCCESS <-> imageUrls (app w) <> None)
  /\ (forall urls, imageUrls (app w) = Some urls -> List.length urls = 2)
  /\ (gridRendered (app w) = true <->
      currentPage (app w) = imageDisplay /\ imageApiState (app w) = SUCCESS)
  /\ List.length (renderedTiles (app w))
     = (if (Page_eqb (currentPage (app w)) imageDisplay
            && ApiState_eqb (imageApiState (app w)) SUCCESS)%bool
        then 2 else 0).
Proof.
  destruct (imagesInvariant_reachable Hreach) as [Hiff Hlen].
  split; [exact Hiff|]. split; [exact Hlen|].
  unfold gridRendered, renderedTiles, imagePageShown.
  destruct (currentPage (app w)); simpl;
    [split; [split; [discriminate | intros [H _]; discriminate] | reflexivity]|].
  unfold shownImages, showImages, errorProp.
  destruct (ApiState_eqb (imageApiState (app w)) SUCCESS) eqn:Eb.
  - apply ApiState_eqb_eq in Eb.
    destruct (imageUrls (app w)) as [urls|] eqn:Eu;
      [|exfalso; apply (proj1 Hiff Eb); reflexivity].
    specialize (Hlen urls eq_refl).
    destruct urls as [|u1 [|u2 [|u3 rest]]]; simpl in Hlen; try discriminate.
    rewrite Eb. simpl. split; [split; auto | reflexivity].
  - assert (Hn : imageApiState (app w) <> SUCCESS).
    { intros E. apply ApiState_eqb_eq in E. congruence. }
    assert (Eu : imageUrls (app w) = None).
    { destruct (imageUrls (app w)) eqn:E; [|reflexivity].
      exfalso. apply Hn. apply Hiff. discriminate. }
    rewrite Eu, andb_false_r.
    split; [split; [discriminate | intros [_ E]; contradiction] | reflexivity].
Qed.

Lemma images_present_witness :
  (imageApiState (app Sample.afterScenario1) = SUCCESS
   <-> imageUrls (app Sample.afterScenario1) <> None)
  /\ (forall urls,
        imageUrls (app Sample.afterScenario1) = Some urls ->
        List.length urls = 2)
  /\ (gridRendered (app Sample.afterScenario1) = true <->
      currentPage (app Sample.afterScenario1) = imageDisplay
      /\ imageApiState (app Sample.afterScenario1) = SUCCESS)
  /\ List.length (renderedTiles (app Sample.afterScenario1))
     = (if (Page_eqb (currentPage (app Sample.afterScenario1)) imageDisplay
            && ApiState_eqb (imageApiState (app Sample.afterScenario1)) SUCCESS)%bool
        then 2 else 0).
Proof.
  exact (images_present_iff_succeeded_and_two
           (reachable_runEvents Sample.scenario1 reach_mount)).
Defined.

(** X4.  In every reachable state a status that is [ERROR] comes with an
    error text that is not empty.  So the error panel of the prompt page
    is rendered exactly when the prompt page is shown and
    [promptApiState] is [ERROR], and the error panel of the image page
    exactly when the image page is shown and [imageApiState] is
    [ERROR]. *)
Theorem failed_status_shows_error_panel (w : World) (Hreach : Reachable w) :
  (promptApiState (app w) = ERROR \/ imageApiState (app w) = ERROR ->
   exists m, error (app w) = Some m /\ m <> [])
  /\ (promptErrorPanel (app w) = true <->
      currentPage (app w) = promptInput /\ promptApiState (app w) = ERROR)
  /\ (imageErrorPanel (app w) = true <->
      currentPage (app w) = imageDisplay /\ imageApiState (app w) = ERROR).
Proof.
  pose proof (errorInvariant_reachable Hreach) as Herr.
  split; [exact Herr|].
  split.
  - unfold promptErrorPanel, promptPageShown, promptErrorCondition.
    rewrite !andb_true_iff, ApiState_eqb_eq, Page_eqb_eq.
    split; [tauto|]. intros [Ep E]. split; [exact Ep|]. split; [|exact E].
    destruct (Herr (or_introl E)) as (m & Hm & Hne). rewrite Hm.
    destruct m; [contradiction | reflexivity].
  - unfold imageErrorPanel, imagePageShown, imageErrorCondition.
    rewrite !andb_true_iff, ApiState_eqb_eq, Page_eqb_eq.
    split; [tauto|]. intros [Ep E]. split; [exact Ep|]. split; [|exact E].
    destruct (Herr (or_intror E)) as (m & Hm & Hne). rewrite Hm.
    destruct m; [contradiction | reflexivity].
Qed.

Lemma failed_status_witness :
  let w := runEvents mounted
             [EditTranscript (lit "a cat"); SubmitPrompt;
              PromptSettled 0 [Sample.failure "quota exceeded"]] in
  (currentPage (app w) = promptInput /\ promptApiState (app w) = ERROR)
  /\ promptErrorPanel (app w) = true.
Proof.
  split; [split; reflexivity|].
  exact (proj2 (proj1 (proj2
           (failed_status_shows_error_panel
              (reachable_runEvents
                 [EditTranscript (lit "a cat"); SubmitPrompt;
                  PromptSettled 0 [Sample.failure "quota exceeded"]]
                 reach_mount))))
           (conj eq_refl eq_refl)).
Defined.

(** X5.  In every reachable state with [promptApiState = SUCCESS] the
    refined prompt is not empty and has no white space at either end.
    The test of [generatedPrompt] in the effect therefore never holds an
    image call back: run on the image page in such a state, the effect
    starts the call for the refined prompt. *)
Theorem succeeded_prompt_is_trimmed (w : World) (Hreach : Reachable w)
    (Hok : promptApiState (app w) = SUCCESS) :
  trimmed (generatedPrompt (app w))
  /\ (currentPage (app w) = imageDisplay ->
      imageCalls (handleGenerateImage w)
      = imageCalls w ++ [generatedPrompt (app w)]
      /\ imageApiState (app (handleGenerateImage w)) = LOADING).
Proof.
  pose proof (promptInvariant_reachable Hreach Hok) as Ht.
  split; [exact Ht|].
  intros Hpage. unfold handleGenerateImage. rewrite Hok, Hpage.
  destruct Ht as (Hne & _). apply truthy_nonempty in Hne. rewrite Hne.
  simpl. auto.
Qed.

Lemma succeeded_prompt_witness :
  trimmed (generatedPrompt (app Sample.afterScenario1)).
Proof.
  exact (proj1 (succeeded_prompt_is_trimmed
                  (reachable_runEvents Sample.scenario1 reach_mount)
                  eq_refl)).
Defined.

(** X6.  Whatever the state, the image page renders exactly one of its
    four blocks: the error panel of [App], or the loading indicator, the
    image grid or the placeholder of [ImageDisplay]. *)
Theorem image_page_shows_one_panel (s : AppState) : imagePagePanels s = 1.
Proof.
  unfold imagePagePanels, imageErrorCondition, loadingPanel, showImages,
    placeholderPanel, errorProp.
  destruct (imageApiState s); simpl;
    destruct (error s) as [[|c m]|]; simpl;
    destruct (imageUrls s) as [[|u urls]|]; reflexivity.
Qed.

(* ------------------------------------------------------------------ *)
(** ** Executions driven through the rendered page *)

Section DrivenFacts.

(** What a gesture can turn into. *)
Lemma eventOf_cases (s : AppState) (g : Gesture) (e : Event) :
  eventOf s g = Some e ->
  keepsPromptPending e = true
  \/ e = GoBack
  \/ (e = SubmitPrompt
      /\ currentPage s = promptInput
      /\ promptApiState s <> LOADING
      /\ trim (transcript s) <> []).
Proof.
  unfold eventOf.
  destruct (currentPage s) eqn:Ep, g as [rec text | rec interim | index | |];
    try discriminate.
  - destruct (textareaDisabled rec s); [discriminate|].
    intros H. inversion H. auto.
  - unfold generateDisabled, displayTranscript.
    destruct (ApiState_eqb (promptApiState s) LOADING) eqn:El; [discriminate|].
    destruct rec; [discriminate|]. simpl.
    destruct (truthy (trim (transcript s))) eqn:Et; [|discriminate].
    intros H. inversion H. right; right.
    repeat split; auto.
    + intros E. apply ApiState_eqb_eq in E. congruence.
    + apply truthy_nonempty. assumption.
  - destruct (nth_error (shownImages s) index); [|discriminate].
    intros H. inversion H. auto.
  - destruct (canPrint s); [|discriminate]. intros H. inversion H. auto.
  - intros H. inversion H. auto.
Qed.

Lemma dispatch_PromptSettled_idle (w : World) (n : nat) (answers : list Answer) :
  handle (PromptSettled n answers) w = w ->
  dispatch w (PromptSettled n answers) = w.
Proof.
  intros H. unfold dispatch. rewrite H. apply commit_same_deps; reflexivity.
Qed.

Lemma inFlight_marked (calls : list jsstring) (settled : list nat) (n m : nat)
    (c : jsstring) :
  inFlight calls (n :: settled) m = Some c ->
  m <> n /\ inFlight calls settled m = Some c.
Proof.
  unfold inFlight. simpl. destruct (Nat.eqb m n) eqn:E; [discriminate|].
  simpl. apply Nat.eqb_neq in E. auto.
Qed.

Lemma inFlight_appended (calls : list jsstring) (settled : list nat) (m : nat)
    (c t : jsstring) :
  inFlight (calls ++ [t]) settled m = Some c ->
  inFlight calls settled m = Some c \/ m = List.length calls.
Proof.
  unfold inFlight. destruct (existsb (Nat.eqb m) settled); [discriminate|].
  intros H. destruct (Nat.lt_ge_cases m (List.length calls)) as [Hlt | Hge].
  - rewrite nth_error_app1 in H by assumption. auto.
  - right. assert (Hm : m < List.length (calls ++ [t])).
    { apply nth_error_Some. congruence. }
    rewrite length_app in Hm. simpl in Hm. lia.
Qed.

Lemma promptCallInvariant_passive (w : World) (e : Event) :
  keepsPromptPending e = true ->
  promptCallInvariant w -> promptCallInvariant (dispatch w e).
Proof.
  intros He [Hcall Hpage].
  destruct (keepsPromptPending_dispatch w e He) as (E1 & E2 & E3 & E4 & _).
  unfold promptCallInvariant. rewrite E1, E2, E3, E4. auto.
Qed.

Lemma promptCallInvariant_GoBack (w : World) :
  promptCallInvariant w -> promptCallInvariant (dispatch w GoBack).
Proof.
  intros [Hcall Hpage]. rewrite dispatch_GoBack. split; simpl.
  - intros n t H. destruct (Hcall n t H) as (H1 & _ & H3). auto.
  - discriminate.
Qed.

Lemma promptCallInvariant_SubmitPrompt (w : World) :
  currentPage (app w) = promptInput ->
  promptApiState (app w) <> LOADING ->
  promptCallInvariant w -> promptCallInvariant (dispatch w SubmitPrompt).
Proof.
  intros Hp Hl [Hcall Hpage]. rewrite dispatch_SubmitPrompt.
  unfold handleGeneratePrompt.
  destruct (negb (truthy (trim (transcript (app w))))); split; simpl.
  - intros n t H. destruct (Hcall n t H) as (H1 & _). contradiction.
  - rewrite Hp. discriminate.
  - intros n t H. apply inFlight_appended in H. destruct H as [H | ->].
    + destruct (Hcall n t H) as (H1 & _). contradiction.
    + rewrite length_app. simpl. repeat split; auto. lia.
  - rewrite Hp. discriminate.
Qed.

Lemma promptCallInvariant_PromptSettled (w : World) (n : nat)
    (answers : list Answer) :
  promptCallInvariant w ->
  promptCallInvariant (dispatch w (PromptSettled n answers)).
Proof.
  intros [Hcall Hpage].
  destruct (inFlight (promptCalls w) (promptSettled w) n) as [t|] eqn:Hflight.
  2:{ rewrite dispatch_PromptSettled_idle; [split; assumption|].
      simpl. rewrite Hflight. reflexivity. }
  destruct (outcome (generateColoringBookPrompt t) answers) as [result|] eqn:Hout.
  2:{ rewrite dispatch_PromptSettled_idle; [split; assumption|].
      simpl. rewrite Hflight, Hout. reflexivity. }
  destruct (Hcall n t Hflight) as (Hl & Hp & Hn).
  rewrite (dispatch_PromptSettled_loading w n answers Hflight Hl Hout).
  destruct result as [prompt | err]; split; simpl;
    try (intros m c H; apply inFlight_marked in H; destruct H as [Hm H];
         destruct (Hcall m c H) as (_ & _ & Hm'); exfalso; lia);
    auto.
  rewrite Hp. discriminate.
Qed.

Lemma promptCallInvariant_drive (w : World) (i : Input) :
  promptCallInvariant w -> promptCallInvariant (drive w i).
Proof.
  intros H. destruct i as [g | text | n answers | n answers]; simpl.
  - unfold act. destruct (eventOf (app w) g) as [e|] eqn:E; [|assumption].
    destruct (eventOf_cases _ _ E) as [He | [-> | (-> & Hp & Hl & _)]].
    + apply promptCallInvariant_passive; assumption.
    + apply promptCallInvariant_GoBack; assumption.
    + apply promptCallInvariant_SubmitPrompt; assumption.
  - apply promptCallInvariant_passive; [reflexivity | assumption].
  - apply promptCallInvariant_PromptSettled; assumption.
  - apply promptCallInvariant_passive; [reflexivity | assumption].
Qed.

Lemma viewReachable_invariant (w : World) :
  ViewReachable w -> promptCallInvariant w.
Proof.
  induction 1 as [| w i _ IH].
  - split; simpl; [|discriminate]. intros n t H.
    unfold inFlight in H. simpl in H. destruct n; discriminate.
  - apply promptCallInvariant_drive. assumption.
Qed.

Lemma viewReachable_reachable (w : World) : ViewReachable w -> Reachable w.
Proof.
  induction 1 as [| w i _ IH]; [constructor|].
  destruct i as [g | text | n answers | n answers]; simpl;
    try (constructor; assumption).
  unfold act. destruct (eventOf (app w) g); [constructor|]; assumption.
Qed.

End DrivenFacts.

(** X7.  In an execution driven through the rendered page at most one
    prompt call is in flight: it is the last one started, and while it
    is in flight [promptApiState] is [LOADING] and the prompt page is
    shown.  The image page is only shown with [promptApiState = SUCCESS],
    a trimmed refined prompt and no prompt call in flight. *)
Theorem driven_prompt_calls_one_at_a_time (w : World) (Hreach : ViewReachable w) :
  (forall n t,
      inFlight (promptCalls w) (promptSettled w) n = Some t ->
      promptApiState (app w) = LOADING
      /\ currentPage (app w) = promptInput
      /\ S n = List.length (promptCalls w))
  /\ (forall n m t t',
        inFlight (promptCalls w) (promptSettled w) n = Some t ->
        inFlight (promptCalls w) (promptSettled w) m = Some t' ->
        n = m)
  /\ (currentPage (app w) = imageDisplay ->
      promptApiState (app w) = SUCCESS
      /\ trimmed (generatedPrompt (app w))
      /\ forall n, inFlight (promptCalls w) (promptSettled w) n = None).
Proof.
  destruct (viewReachable_invariant Hreach) as [Hcall Hpage].
  split; [exact Hcall|]. split.
  - intros n m t t' Hn Hm.
    destruct (Hcall n t Hn) as (_ & _ & En).
    destruct (Hcall m t' Hm) as (_ & _ & Em). lia.
  - intros Hp. split; [auto|]. split.
    + apply (promptInvariant_reachable (viewReachable_reachable Hreach)). auto.
    + intros n.
      destruct (inFlight (promptCalls w) (promptSettled w) n) as [t|] eqn:E;
        [|reflexivity].
      destruct (Hcall n t E) as (_ & Hq & _). congruence.
Qed.

Lemma driven_prompt_calls_witness :
  let w := drive (drive mounted (UserGesture (TypeTranscript false (lit "a cat"))))
             (UserGesture (ClickGenerate false [])) in
  inFlight (promptCalls w) (promptSettled w) 0 = Some (lit "a cat")
  /\ promptApiState (app w) = LOADING
  /\ currentPage (app w) = promptInput
  /\ 1 = List.length (promptCalls w).
Proof.
  split; [reflexivity|].
  exact (proj1 (driven_prompt_calls_one_at_a_time
                  (view_step (UserGesture (ClickGenerate false []))
                     (view_step (UserGesture (TypeTranscript false (lit "a cat")))
                        view_mount)))
           0 (lit "a cat") eq_refl).
Defined.

(** X8.  In an execution driven through the rendered page, every prompt
    call that settles with success shows the image page and starts
    exactly one image call, for the refined prompt; one that settles
    with failure stays on the prompt page and starts none.  Afterwards
    no prompt call is in flight. *)
Theorem driven_prompt_answer_starts_one_image_call (w : World) (n : nat)
    (t : jsstring) (answers : list Answer) (result : Settled jsstring)
    (Hreach : ViewReachable w)
    (Hflight : inFlight (promptCalls w) (promptSettled w) n = Some t)
    (Hsettles : outcome (generateColoringBookPrompt t) answers = Some result) :
  let w' := drive w (PromptAnswered n answers) in
  match result with
  | Fulfilled prompt =>
      promptApiState (app w') = SUCCESS
      /\ currentPage (app w') = imageDisplay
      /\ generatedPrompt (app w') = prompt
      /\ imageApiState (app w') = LOADING
      /\ imageCalls w' = imageCalls w ++ [prompt]
  | Rejected err =>
      promptApiState (app w') = ERROR
      /\ currentPage (app w') = promptInput
      /\ imageCalls w' = imageCalls w
  end
  /\ (forall m, inFlight (promptCalls w') (promptSettled w') m = None).
Proof.
  intros w'.
  destruct (viewReachable_invariant Hreach) as [Hcall _].
  destruct (Hcall n t Hflight) as (Hl & Hp & Hn).
  assert (E : w' = dispatch w (PromptSettled n answers)) by reflexivity.
  split.
  - rewrite E, (dispatch_PromptSettled_loading w n answers Hflight Hl Hsettles).
    destruct result as [prompt | err]; simpl; auto.
  - intros m.
    destruct (viewReachable_invariant (view_step (PromptAnswered n answers) Hreach))
      as [Hcall' _].
    fold w' in Hcall'.
    destruct (inFlight (promptCalls w') (promptSettled w') m) as [c|] eqn:Em;
      [|reflexivity].
    destruct (Hcall' m c Em) as (Hl' & _). exfalso.
    rewrite E, (dispatch_PromptSettled_loading w n answers Hflight Hl Hsettles)
      in Hl'.
    destruct result; simpl in Hl'; discriminate.
Qed.

Lemma driven_prompt_answer_witness :
  let w := drive (drive mounted (UserGesture (TypeTranscript false (lit "a cat"))))
             (UserGesture (ClickGenerate false [])) in
  let w' := drive w (PromptAnswered 0 [Sample.textAnswer " a cute cat "]) in
  (promptApiState (app w') = SUCCESS
   /\ currentPage (app w') = imageDisplay
   /\ generatedPrompt (app w') = lit "a cute cat"
   /\ imageApiState (app w') = LOADING
   /\ imageCalls w' = imageCalls w ++ [lit "a cute cat"])
  /\ (forall m, inFlight (promptCalls w') (promptSettled w') m = None).
Proof.
  exact (@driven_prompt_answer_starts_one_image_call
           (drive (drive mounted (UserGesture (TypeTranscript false (lit "a cat"))))
              (UserGesture (ClickGenerate false [])))
           0 (lit "a cat") [Sample.textAnswer " a cute cat "]
           (Fulfilled (lit "a cute cat"))
           (view_step (UserGesture (ClickGenerate false []))
              (view_step (UserGesture (TypeTranscript false (lit "a cat")))
                 view_mount))
           eq_refl eq_refl).
Defined.

Section SelectionWithinImages.

Lemma shownImages_incl (s : AppState) (u : jsstring) :
  In u (shownImages s) -> In u (images s).
Proof.
  unfold shownImages, images. destruct (showImages s); [|contradiction].
  destruct (imageUrls s); auto.
Qed.

(** Apart from the settling of an image call, an event that does not
    empty the selection leaves [imageUrls] alone. *)
Lemma dispatch_keeps_imageUrls (w : World) (e : Event) :
  (forall n answers, e <> ImageSettled n answers) ->
  selectedImageUrls (app (dispatch w e)) = []
  \/ imageUrls (app (dispatch w e)) = imageUrls (app w).
Proof.
  intros He.
  destruct (dispatch_cases w e) as [-> | (_ & _ & _ & ->)]; [|left; reflexivity].
  handle_cases w e; simpl; auto; exfalso; eapply He; reflexivity.
Qed.

Lemma dispatch_within_images (w : World) (e : Event) :
  (forall n answers, e <> ImageSettled n answers) ->
  (forall url, e = ToggleSelection url -> In url (images (app w))) ->
  incl (selectedImageUrls (app w)) (images (app w)) ->
  incl (selectedImageUrls (app (dispatch w e))) (images (app (dispatch w e))).
Proof.
  intros He Hu Hincl.
  destruct (dispatch_keeps_imageUrls w He) as [-> | Ei];
    [intros x []|].
  unfold images in *. rewrite Ei.
  destruct (dispatch_selected w e) as [-> | [-> | (url & Eu & ->)]].
  - assumption.
  - intros x [].
  - intros x Hx. apply toggle_In in Hx.
    destruct Hx as [[Hx _] | [-> _]]; [apply Hincl; assumption|].
    apply (Hu url Eu).
Qed.

End SelectionWithinImages.

(** X9.  Every gesture on the rendered page, every dictated edit and
    every settling of a prompt call keeps the selection within the
    locators of [imageUrls].  The settling of an image call never
    touches the selection, whatever it does to [imageUrls]; so it keeps
    the selection within [imageUrls] when nothing is selected at that
    moment. *)
Theorem driven_selection_stays_within_images :
  (forall (w : World) (i : Input),
      incl (selectedImageUrls (app w)) (images (app w)) ->
      (forall n answers, i <> ImageAnswered n answers) ->
      incl (selectedImageUrls (app (drive w i))) (images (app (drive w i))))
  /\ (forall (w : World) (n : nat) (answers : list Answer),
        selectedImageUrls (app (drive w (ImageAnswered n answers)))
        = selectedImageUrls (app w))
  /\ (forall (w : World) (n : nat) (answers : list Answer),
        selectedImageUrls (app w) = [] ->
        incl (selectedImageUrls (app (drive w (ImageAnswered n answers))))
          (images (app (drive w (ImageAnswered n answers))))).
Proof.
  assert (Himage : forall (w : World) (n : nat) (answers : list Answer),
             selectedImageUrls (app (drive w (ImageAnswered n answers)))
             = selectedImageUrls (app w)).
  { intros w n answers. simpl. rewrite dispatch_ImageSettled. simpl.
    destruct (inFlight (imageCalls w) (imageSettled w) n); [|reflexivity].
    destruct (outcome _ answers) as [[urls|err]|]; reflexivity. }
  split; [|split; [exact Himage|]].
  - intros w i Hwithin Hinput.
    destruct i as [g | text | n answers | n answers]; simpl.
    + unfold act. destruct (eventOf (app w) g) as [e|] eqn:E; [|assumption].
      unfold eventOf in E.
      destruct (currentPage (app w)), g as [rec text | rec interim | index | |];
        try discriminate.
      * destruct (textareaDisabled rec (app w)); inversion E; subst.
        apply dispatch_within_images; auto; discriminate.
      * destruct (generateDisabled rec interim (app w)); inversion E; subst.
        apply dispatch_within_images; auto; discriminate.
      * destruct (nth_error (shownImages (app w)) index) as [u|] eqn:Eu;
          inversion E; subst.
        apply dispatch_within_images; auto; [discriminate|].
        intros url H. inversion H; subst.
        apply shownImages_incl. apply (nth_error_In _ _ Eu).
      * destruct (canPrint (app w)); inversion E; subst.
        apply dispatch_within_images; auto; discriminate.
      * inversion E; subst.
        apply dispatch_within_images; auto; discriminate.
    + apply dispatch_within_images; auto; discriminate.
    + apply dispatch_within_images; auto; discriminate.
    + exfalso. apply (Hinput n answers). reflexivity.
  - intros w n answers Hsel. rewrite Himage, Hsel. intros x [].
Qed.

Lemma driven_selection_witness :
  let w := drive Sample.afterScenario1 (UserGesture (ClickImage 1)) in
  let i := UserGesture (ClickImage 0) in
  selectedImageUrls (app (drive w i)) = [Sample.imgB; Sample.imgA]
  /\ incl (selectedImageUrls (app (drive w i))) (images (app (drive w i))).
Proof.
  split; [reflexivity|].
  refine (proj1 driven_selection_stays_within_images
            (drive Sample.afterScenario1 (UserGesture (ClickImage 1)))
            (UserGesture (ClickImage 0)) _ _).
  - vm_compute. intros x [<- | []]. right. left. reflexivity.
  - intros n answers. discriminate.
Defined.

(* ------------------------------------------------------------------ *)
(** ** Buttons and what they reach *)

(** X10.  A click on the print button never changes the state.  When the
    click reaches [handlePrintSelectedImages] the selection is not
    empty, so the alert for an empty selection cannot come up that way:
    the handler prints the selected locators in selection order, or
    reports that the print window could not be opened. *)
Theorem print_button_prints_selection (w : World) (popupOpens : bool) :
  act w ClickPrint = w
  /\ (forall e,
        eventOf (app w) ClickPrint = Some e ->
        e = RequestPrint
        /\ currentPage (app w) = imageDisplay
        /\ showImages (app w) = true
        /\ selectedImageUrls (app w) <> []
        /\ printOutcome popupOpens (app w) <> AlertSelectImage
        /\ printOutcome popupOpens (app w)
           = (if popupOpens then PrintPages (selectedImageUrls (app w))
              else AlertPopupBlocked)).
Proof.
  split.
  - unfold act, eventOf.
    destruct (currentPage (app w)); [reflexivity|].
    destruct (canPrint (app w)); [apply dispatch_RequestPrint | reflexivity].
  - intros e. unfold eventOf, canPrint, printOutcome.
    destruct (currentPage (app w)); [discriminate|].
    destruct (showImages (app w)); [|discriminate].
    destruct (selectedImageUrls (app w)) as [|u sel]; [discriminate|].
    simpl. intros H. inversion H.
    repeat split; try discriminate; destruct popupOpens; try discriminate;
      reflexivity.
Qed.

Lemma print_button_witness :
  let w := drive Sample.afterScenario1 (UserGesture (ClickImage 1)) in
  eventOf (app w) ClickPrint = Some RequestPrint
  /\ printOutcome true (app w) = PrintPages [Sample.imgB].
Proof.
  split; [reflexivity|].
  exact (proj2 (proj2 (proj2 (proj2 (proj2
           (proj2 (print_button_prints_selection
                     (drive Sample.afterScenario1 (UserGesture (ClickImage 1)))
                     true)
              RequestPrint eq_refl)))))).
Defined.

(** X11.  A click on the generate button never takes the empty-input
    branch of [handleGeneratePrompt]: either the button is not rendered
    or is disabled and nothing happens, or the prompt page is shown,
    nothing is loading or recording, the transcript is not blank, and
    the click starts one prompt call for the transcript after clearing
    the error text, the images and the selection. *)
Theorem generate_button_calls_or_does_nothing (w : World) (isRecording : bool)
    (interim : jsstring) :
  let w' := act w (ClickGenerate isRecording interim) in
  w' = w
  \/ (isRecording = false
      /\ currentPage (app w) = promptInput
      /\ promptApiState (app w) <> LOADING
      /\ trim (transcript (app w)) <> []
      /\ promptCalls w' = promptCalls w ++ [transcript (app w)]
      /\ imageCalls w' = imageCalls w
      /\ promptApiState (app w') = LOADING
      /\ error (app w') = None
      /\ imageApiState (app w') = IDLE
      /\ imageUrls (app w') = None
      /\ selectedImageUrls (app w') = []
      /\ currentPage (app w') = promptInput).
Proof.
  intros w'. unfold w', act.
  destruct (eventOf (app w) (ClickGenerate isRecording interim)) as [e|] eqn:E;
    [|left; reflexivity].
  right.
  assert (Hrec : isRecording = false).
  { unfold eventOf, generateDisabled in E.
    destruct (currentPage (app w)); [|discriminate].
    destruct isRecording; [|reflexivity].
    rewrite orb_true_r in E. discriminate. }
  destruct (eventOf_cases _ _ E) as [He | [-> | (-> & Hp & Hl & Ht)]].
  - unfold eventOf in E. destruct (currentPage (app w)); [|discriminate].
    destruct (generateDisabled isRecording interim (app w)); inversion E; subst.
    discriminate.
  - unfold eventOf in E. destruct (currentPage (app w)); [|discriminate].
    destruct (generateDisabled isRecording interim (app w)); discriminate.
  - rewrite dispatch_SubmitPrompt. unfold handleGeneratePrompt.
    pose proof Ht as Ht'. apply truthy_nonempty in Ht'. rewrite Ht'. simpl.
    repeat split; auto.
Qed.

(** X12.  When the service rejects the request of a prompt call, or its
    response has no text or only white space, the call settles with
    failure: [promptApiState] becomes [ERROR], the refined prompt is
    cleared, and the error text is the reason behind the prefix of the
    client and the prefix of the component.  The page, the transcript
    and the images stay as they were and no image call is started.  The
    error panel of the prompt page is rendered exactly when the prompt
    page is the one shown. *)
Theorem prompt_failure_is_reported (w : World) (n : nat) (t : jsstring)
    (ans : Answer) (rest : list Answer) (reason : jsstring)
    (Hflight : inFlight (promptCalls w) (promptSettled w) n = Some t)
    (Hreason : promptFailureReason ans = Some reason) :
  let w' := dispatch w (PromptSettled n (ans :: rest)) in
  promptApiState (app w') = ERROR
  /\ generatedPrompt (app w') = []
  /\ error (app w')
     = Some (lit "Failed to generate prompt: "
               ++ lit "Failed to generate prompt: " ++ reason)
  /\ (promptErrorPanel (app w') = true <-> currentPage (app w) = promptInput)
  /\ currentPage (app w') = currentPage (app w)
  /\ transcript (app w') = transcript (app w)
  /\ imageUrls (app w') = imageUrls (app w)
  /\ imageApiState (app w') = imageApiState (app w)
  /\ imageCalls w' = imageCalls w
  /\ inFlight (promptCalls w') (promptSettled w') n = None.
Proof.
  intros w'.
  assert (Hout : outcome (generateColoringBookPrompt t) (ans :: rest)
                 = Some (promptFailure reason)).
  { rewrite generateColoringBookPrompt_outcome. unfold promptFailureReason in Hreason.
    destruct ans as [response | e]; [|inversion Hreason; reflexivity].
    destruct (text response) as [txt|]; [|inversion Hreason; reflexivity].
    destruct (truthy (trim txt)); [discriminate|].
    inversion Hreason. reflexivity. }
  assert (E : w' = (markPromptSettled n ;;
                    promptContinuation (promptFailure reason))%handler w).
  { unfold w', dispatch. simpl handle. rewrite Hflight, Hout.
    apply commit_guard. left. simpl. discriminate. }
  rewrite E. simpl.
  split; [reflexivity|]. split; [reflexivity|]. split; [reflexivity|].
  split.
  { unfold promptErrorPanel, promptPageShown, promptErrorCondition. simpl.
    rewrite andb_true_r. apply Page_eqb_eq. }
  repeat split; try reflexivity.
  unfold inFlight. simpl. rewrite Nat.eqb_refl. reflexivity.
Qed.

Lemma prompt_failure_witness :
  let w := runEvents mounted [EditTranscript (lit "a cat"); SubmitPrompt] in
  let w' := dispatch w (PromptSettled 0 [Sample.textAnswer "   "]) in
  promptApiState (app w') = ERROR
  /\ generatedPrompt (app w') = []
  /\ error (app w')
     = Some (lit "Failed to generate prompt: Failed to generate prompt: Gemini did not return a valid prompt text.").
Proof.
  pose proof (@prompt_failure_is_reported
                (runEvents mounted [EditTranscript (lit "a cat"); SubmitPrompt])
                0 (lit "a cat") (Sample.textAnswer "   ") []
                (lit "Gemini did not return a valid prompt text.")
                eq_refl eq_refl) as H.
  cbv zeta in H.
  destruct H as (H1 & H2 & H3 & _).
  split; [exact H1|]. split; [exact H2 | exact H3].
Defined.

(* ------------------------------------------------------------------ *)
(** ** Dictation *)

Section DictationFacts.

Lemma onresultStep_fold (l : list SpeechRecognitionResult)
    (finalTranscript currentInterim : jsstring) :
  fold_left onresultStep l (finalTranscript, currentInterim)
  = (finalTranscript ++ finalChunks l, currentInterim ++ interimChunks l).
Proof.
  revert finalTranscript currentInterim. unfold finalChunks, interimChunks.
  induction l as [|r l IH]; intros f i; simpl.
  - rewrite !app_nil_r. reflexivity.
  - destruct (isFinal r); simpl; rewrite IH, <- app_assoc; reflexivity.
Qed.

Lemma onresultLoop_chunks (event : SpeechRecognitionEvent) :
  onresultLoop event
  = (finalChunks (skipn (resultIndex event) (results event)),
     interimChunks (skipn (resultIndex event) (results event))).
Proof. unfold onresultLoop. rewrite onresultStep_fold. reflexivity. Qed.

Lemma joinSpace_merge (a b : jsstring) (chunks : list jsstring) :
  joinSpace ((a ++ lit " " ++ b) :: chunks)
  = a ++ lit " " ++ joinSpace (b :: chunks).
Proof.
  destruct chunks as [|c chunks]; [reflexivity|].
  change (joinSpace ((a ++ lit " " ++ b) :: c :: chunks))
    with ((a ++ lit " " ++ b) ++ lit " " ++ joinSpace (c :: chunks)).
  change (joinSpace (b :: c :: chunks))
    with (b ++ lit " " ++ joinSpace (c :: chunks)).
  rewrite <- !app_assoc. reflexivity.
Qed.

Lemma onresult_fold (events : list SpeechRecognitionEvent) (mic : Mic)
    (prev : jsstring) :
  snd (fold_left (fun st event => onresult event st) events (mic, prev))
  = joinSpace (filter truthy
                 (prev :: map (fun event => fst (onresultLoop event)) events)).
Proof.
  revert mic prev. induction events as [|event events IH]; intros mic prev.
  - simpl. destruct prev; reflexivity.
  - cbn [fold_left map]. unfold onresult at 2.
    destruct (onresultLoop event) as [finalTranscript currentInterim] eqn:E.
    rewrite IH. cbn [fst filter].
    destruct finalTranscript as [|c f]; [reflexivity|].
    destruct prev as [|d p]; [reflexivity|].
    cbn [truthy app]. rewrite <- app_assoc.
    change (d :: p ++ lit " " ++ c :: f) with ((d :: p) ++ lit " " ++ (c :: f)).
    cbn [filter truthy]. apply joinSpace_merge.
Qed.

End DictationFacts.

Lemma onresult_fold_isRecording (events : list SpeechRecognitionEvent)
    (mic : Mic) (prev : jsstring) :
  isRecording
    (fst (fold_left (fun st event => onresult event st) events (mic, prev)))
  = isRecording mic.
Proof.
  revert mic prev. induction events as [|event events IH]; intros mic prev;
    [reflexivity|].
  cbn [fold_left]. unfold onresult at 2.
  destruct (onresultLoop event) as [finalTranscript currentInterim].
  rewrite IH. reflexivity.
Qed.

(** X13.  One result event of the speech recogniser: the results before
    [resultIndex] are not read; the texts of the final results from
    there on are appended to the transcript in order, after one space
    when the transcript was not empty; the interim text is replaced by
    the texts of the results that are not final.  The transcript is left
    alone when no final text came, and what it held is never removed. *)
Theorem onresult_appends_final_text (event : SpeechRecognitionEvent)
    (mic : Mic) (prev : jsstring) :
  let tail := skipn (resultIndex event) (results event) in
  let st' := onresult event (mic, prev) in
  isRecording (fst st') = isRecording mic
  /\ interimSpeechResult (fst st') = interimChunks tail
  /\ (finalChunks tail = [] -> snd st' = prev)
  /\ (finalChunks tail <> [] -> prev = [] -> snd st' = finalChunks tail)
  /\ (finalChunks tail <> [] -> prev <> [] ->
      snd st' = prev ++ lit " " ++ finalChunks tail)
  /\ (exists suffix, snd st' = prev ++ suffix).
Proof.
  intros tail st'. unfold st', onresult.
  rewrite onresultLoop_chunks. fold tail. cbn [fst snd isRecording interimSpeechResult].
  split; [reflexivity|]. split; [reflexivity|].
  destruct (finalChunks tail) as [|c f] eqn:E.
  - cbn [truthy]. repeat split; try congruence. exists []. rewrite app_nil_r.
    reflexivity.
  - cbn [truthy]. split; [discriminate|]. split; [|split].
    + intros _ ->. reflexivity.
    + intros _ Hp. apply truthy_nonempty in Hp. rewrite Hp.
      rewrite <- app_assoc. reflexivity.
    + destruct (truthy prev) eqn:Hp.
      * exists (lit " " ++ c :: f). rewrite <- app_assoc. reflexivity.
      * destruct prev; [|discriminate]. exists (c :: f). reflexivity.
Qed.

Lemma onresult_witness :
  let event :=
    {| resultIndex := 1;
       results := [ {| isFinal := true; firstAlternative := lit "old" |};
                    {| isFinal := true; firstAlternative := lit "a happy" |};
                    {| isFinal := false; firstAlternative := lit "dino" |};
                    {| isFinal := true; firstAlternative := lit " dinosaur" |} ] |} in
  let mic := {| isRecording := true; interimSpeechResult := lit "a hap" |} in
  snd (onresult event (mic, lit "draw")) = lit "draw a happy dinosaur".
Proof.
  exact (proj1 (proj2 (proj2 (proj2 (proj2
           (onresult_appends_final_text
              {| resultIndex := 1;
                 results := [ {| isFinal := true; firstAlternative := lit "old" |};
                              {| isFinal := true; firstAlternative := lit "a happy" |};
                              {| isFinal := false; firstAlternative := lit "dino" |};
                              {| isFinal := true;
                                 firstAlternative := lit " dinosaur" |} ] |}
              {| isRecording := true; interimSpeechResult := lit "a hap" |}
              (lit "draw"))))))
           ltac:(vm_compute; discriminate) ltac:(vm_compute; discriminate)).
Defined.

(** X14.  A recording, from its start through any run of result events:
    what the transcript held before is discarded, and the transcript is
    the final texts of the events, those that are not empty, joined by
    single spaces; the component is still recording. *)
Theorem dictation_joins_final_texts (events : list SpeechRecognitionEvent)
    (st : Mic * jsstring) :
  let finalOf event := finalChunks (skipn (resultIndex event) (results event)) in
  snd (dictate events st) = joinSpace (filter truthy (map finalOf events))
  /\ isRecording (fst (dictate events st)) = true.
Proof.
  intros finalOf. unfold dictate, onstart. split.
  - rewrite onresult_fold. cbn [filter truthy]. f_equal. f_equal.
    apply map_ext. intros event. rewrite onresultLoop_chunks. reflexivity.
  - rewrite onresult_fold_isRecording. reflexivity.
Qed.

(* ------------------------------------------------------------------ *)
(** ** What the rendered page lets through *)

(** C3.  A locator that is not in [images] is never toggled: no control
    of the rendered page issues [ToggleSelection] for it, a click where
    no tile is shown does nothing, and no input of a running application
    brings it into [selected]. *)
Theorem absent_locator_is_never_toggled (w : World) (u : jsstring)
    (Habsent : ~ In u (images (app w))) :
  (forall g, eventOf (app w) g <> Some (ToggleSelection u))
  /\ (forall index,
        nth_error (shownImages (app w)) index = None ->
        act w (ClickImage index) = w)
  /\ (forall i,
        In u (selectedImageUrls (app (drive w i))) ->
        In u (selectedImageUrls (app w))).
Proof.
  assert (Hnone : forall g, eventOf (app w) g <> Some (ToggleSelection u)).
  { intros g E. unfold eventOf in E.
    destruct (currentPage (app w)), g as [rec text | rec interim | index | |];
      try discriminate.
    - destruct (textareaDisabled rec (app w)); discriminate.
    - destruct (generateDisabled rec interim (app w)); discriminate.
    - destruct (nth_error (shownImages (app w)) index) as [v|] eqn:Ev;
        [|discriminate].
      inversion E; subst v. apply Habsent, shownImages_incl.
      apply (nth_error_In _ _ Ev).
    - destruct (canPrint (app w)); discriminate. }
  split; [exact Hnone|]. split.
  - intros index H. unfold act, eventOf.
    destruct (currentPage (app w)); [reflexivity|]. rewrite H. reflexivity.
  - assert (Hstep : forall e, e <> ToggleSelection u ->
               In u (selectedImageUrls (app (dispatch w e))) ->
               In u (selectedImageUrls (app w))).
    { intros e He.
      destruct (dispatch_selected w e) as [-> | [-> | (v & Ev & ->)]];
        [auto | intros [] |].
      intros H. apply toggle_In in H. destruct H as [[H _] | [Huv _]]; [exact H|].
      subst v. contradiction. }
    intros i. destruct i as [g | text | n answers | n answers]; simpl;
      try (apply Hstep; discriminate).
    unfold act. destruct (eventOf (app w) g) as [e|] eqn:E; [|auto].
    apply Hstep. intros ->. apply (Hnone g E).
Qed.

Lemma absent_locator_witness :
  ~ In (lit "elsewhere") (images (app Sample.afterScenario1))
  /\ eventOf (app Sample.afterScenario1) (ClickImage 2)
     <> Some (ToggleSelection (lit "elsewhere"))
  /\ act Sample.afterScenario1 (ClickImage 2) = Sample.afterScenario1.
Proof.
  assert (H : ~ In (lit "elsewhere") (images (app Sample.afterScenario1))).
  { intros [H | [H | []]]; vm_compute in H; discriminate H. }
  split; [exact H|]. split.
  - exact (proj1 (absent_locator_is_never_toggled
                    Sample.afterScenario1 (lit "elsewhere") H)
             (ClickImage 2)).
  - exact (proj1 (proj2 (absent_locator_is_never_toggled
                           Sample.afterScenario1 (lit "elsewhere") H))
             2 eq_refl).
Defined.

(** C4.  While [promptStatus] is [InFlight] no control of the rendered
    page issues [SubmitPrompt], and a click on the generate button leaves
    the world as it is: no field of the state changes and no client call
    is started. *)
Theorem submit_while_in_flight_is_noop (w : World)
    (Hloading : promptApiState (app w) = LOADING) :
  (forall g, eventOf (app w) g <> Some SubmitPrompt)
  /\ (forall (isRecording : bool) (interim : jsstring),
        act w (ClickGenerate isRecording interim) = w).
Proof.
  assert (Hnone : forall g, eventOf (app w) g <> Some SubmitPrompt).
  { intros g E.
    destruct (eventOf_cases _ _ E) as [He | [He | (_ & _ & Hl & _)]];
      [discriminate He | discriminate He | contradiction]. }
  split; [exact Hnone|].
  intros rec interim. unfold act.
  destruct (eventOf (app w) (ClickGenerate rec interim)) as [e|] eqn:E;
    [|reflexivity].
  exfalso. apply (Hnone (ClickGenerate rec interim)). rewrite E. f_equal.
  unfold eventOf in E. destruct (currentPage (app w)); [|discriminate].
  destruct (generateDisabled rec interim (app w)); inversion E. reflexivity.
Qed.

Lemma submit_while_in_flight_noop_witness :
  let w := driveAll mounted
             [UserGesture (TypeTranscript false (lit "a cat"));
              UserGesture (ClickGenerate false [])] in
  promptApiState (app w) = LOADING
  /\ promptCalls w = [lit "a cat"]
  /\ act w (ClickGenerate false []) = w.
Proof.
  split; [reflexivity|]. split; [reflexivity|].
  exact (proj2 (submit_while_in_flight_is_noop
                  (driveAll mounted
                     [UserGesture (TypeTranscript false (lit "a cat"));
                      UserGesture (ClickGenerate false [])])
                  eq_refl)
           false []).
Defined.

(* ------------------------------------------------------------------ *)
(** ** One image call for each successful prompt *)

Section DrivenSteps.

(** An input that is not the successful settling of a prompt call
    starts no image call, and neither shows the image page nor makes
    the prompt status [SUCCESS]. *)
Lemma drive_without_success (w : World) (i : Input) :
  promptSucceeds w i = false ->
  imageCalls (drive w i) = imageCalls w
  /\ (currentPage (app (drive w i)) = imageDisplay ->
      currentPage (app w) = imageDisplay)
  /\ (promptApiState (app (drive w i)) = SUCCESS ->
      promptApiState (app w) = SUCCESS).
Proof.
  assert (Hpassive : forall e, keepsPromptPending e = true ->
             imageCalls (dispatch w e) = imageCalls w
             /\ (currentPage (app (dispatch w e)) = imageDisplay ->
                 currentPage (app w) = imageDisplay)
             /\ (promptApiState (app (dispatch w e)) = SUCCESS ->
                 promptApiState (app w) = SUCCESS)).
  { intros e He.
    destruct (keepsPromptPending_dispatch w e He) as (E1 & E2 & _ & _ & E5).
    rewrite E1, E2, E5. auto. }
  intros Hs. destruct i as [g | text | n answers | n answers]; simpl.
  - unfold act. destruct (eventOf (app w) g) as [e|] eqn:E; [|auto].
    destruct (eventOf_cases _ _ E) as [He | [-> | (-> & _)]].
    + apply Hpassive. assumption.
    + rewrite dispatch_GoBack. simpl. repeat split; auto. discriminate.
    + rewrite dispatch_SubmitPrompt. unfold handleGeneratePrompt.
      destruct (negb (truthy (trim (transcript (app w))))); simpl;
        repeat split; auto; discriminate.
  - apply Hpassive. reflexivity.
  - simpl in Hs.
    destruct (inFlight (promptCalls w) (promptSettled w) n) as [t|] eqn:Hflight.
    2:{ rewrite dispatch_PromptSettled_idle; [auto|].
        simpl. rewrite Hflight. reflexivity. }
    destruct (outcome (generateColoringBookPrompt t) answers)
      as [[prompt | err]|] eqn:Hout; [discriminate | |].
    + assert (E : dispatch w (PromptSettled n answers)
                  = (markPromptSettled n ;;
                     promptContinuation (Rejected err))%handler w).
      { unfold dispatch. simpl handle. rewrite Hflight, Hout.
        apply commit_guard. left. simpl. discriminate. }
      rewrite E. simpl. repeat split; auto. discriminate.
    + rewrite dispatch_PromptSettled_idle; [auto|].
      simpl. rewrite Hflight, Hout. reflexivity.
  - apply Hpassive. reflexivity.
Qed.

(** The successful settling of a prompt call, in a run driven through
    the rendered page. *)
Lemma drive_with_success (w : World) (i : Input) :
  ViewReachable w ->
  promptSucceeds w i = true ->
  promptApiState (app w) = LOADING
  /\ currentPage (app w) = promptInput
  /\ promptApiState (app (drive w i)) = SUCCESS
  /\ currentPage (app (drive w i)) = imageDisplay
  /\ imageApiState (app (drive w i)) = LOADING
  /\ imageCalls (drive w i)
     = imageCalls w ++ [generatedPrompt (app (drive w i))].
Proof.
  intros Hreach Hs.
  destruct i as [g | text | n answers | n answers]; try discriminate.
  simpl in Hs.
  destruct (inFlight (promptCalls w) (promptSettled w) n) as [t|] eqn:Hflight;
    [|discriminate].
  destruct (outcome (generateColoringBookPrompt t) answers)
    as [[prompt | err]|] eqn:Hout; try discriminate.
  destruct (viewReachable_invariant Hreach) as [Hcall _].
  destruct (Hcall n t Hflight) as (Hl & Hp & _).
  simpl. rewrite (dispatch_PromptSettled_loading w n answers Hflight Hl Hout).
  simpl. repeat split; auto.
Qed.

Lemma viewReachable_driveAll (run : list Input) (w : World) :
  ViewReachable w -> ViewReachable (driveAll w run).
Proof.
  revert w. induction run as [|i run IH]; intros w H; [exact H|].
  apply (IH (drive w i)). constructor. assumption.
Qed.

Lemma driveAll_imageCalls (run : list Input) (w : World) :
  ViewReachable w ->
  List.length (imageCalls (driveAll w run))
  = List.length (imageCalls w) + successes w run.
Proof.
  revert w. induction run as [|i run IH]; intros w H.
  - simpl. lia.
  - change (driveAll w (i :: run)) with (driveAll (drive w i) run).
    rewrite (IH (drive w i) (view_step i H)). cbn [successes].
    destruct (promptSucceeds w i) eqn:Es.
    + destruct (drive_with_success i H Es) as (_ & _ & _ & _ & _ & ->).
      rewrite length_app. simpl. lia.
    + destruct (drive_without_success w i Es) as (-> & _). lia.
Qed.

End DrivenSteps.

(** C9.  In an execution driven through the rendered page, an input
    makes [screen] become the image page exactly when it makes
    [promptStatus] become [Succeeded], and exactly when it is the
    successful settling of a prompt call in flight.  Such an input
    starts exactly one image call, for the refined prompt; no other
    input starts one.  So along every run the number of image calls
    started is the number of prompt calls that settled with success:
    not zero and not more than one for each. *)
Theorem driven_successful_prompt_one_image_attempt :
  (forall run : list Input,
      List.length (imageCalls (driveAll mounted run)) = successes mounted run)
  /\ (forall (w : World) (i : Input),
        ViewReachable w ->
        let w' := drive w i in
        (promptSucceeds w i = true <->
         currentPage (app w) = promptInput /\ currentPage (app w') = imageDisplay)
        /\ (promptSucceeds w i = true <->
            promptApiState (app w) <> SUCCESS /\ promptApiState (app w') = SUCCESS)
        /\ (promptSucceeds w i = true ->
            imageApiState (app w') = LOADING
            /\ imageCalls w' = imageCalls w ++ [generatedPrompt (app w')])
        /\ (promptSucceeds w i = false -> imageCalls w' = imageCalls w)).
Proof.
  split.
  - intros run. rewrite (driveAll_imageCalls run view_mount). reflexivity.
  - intros w i Hreach w'. unfold w'.
    split; [|split; [|split]].
    + split.
      * intros Hs.
        destruct (drive_with_success i Hreach Hs) as (_ & Hp & _ & Hp' & _).
        auto.
      * intros [Hp Hp']. destruct (promptSucceeds w i) eqn:Es; [reflexivity|].
        destruct (drive_without_success w i Es) as (_ & Hpage & _).
        apply Hpage in Hp'. congruence.
    + split.
      * intros Hs.
        destruct (drive_with_success i Hreach Hs) as (Hl & _ & Hs' & _).
        split; [congruence | exact Hs'].
      * intros [Hn Hs']. destruct (promptSucceeds w i) eqn:Es; [reflexivity|].
        destruct (drive_without_success w i Es) as (_ & _ & Hstatus).
        apply Hstatus in Hs'. contradiction.
    + intros Hs.
      destruct (drive_with_success i Hreach Hs) as (_ & _ & _ & _ & Hi & Hc).
      auto.
    + intros Hs. apply (drive_without_success w i Hs).
Qed.

Lemma driven_successful_prompt_witness :
  let run := StaleRun.firstPrompt
               ++ [UserGesture ClickBack]
               ++ StaleRun.secondPrompt
               ++ [ImageAnswered 0 StaleRun.catImages;
                   UserGesture (ClickImage 0)] in
  successes mounted run = 2
  /\ List.length (imageCalls (driveAll mounted run)) = successes mounted run.
Proof.
  split; [vm_compute; reflexivity|].
  exact (proj1 driven_successful_prompt_one_image_attempt
           (StaleRun.firstPrompt
              ++ [UserGesture ClickBack]
              ++ StaleRun.secondPrompt
              ++ [ImageAnswered 0 StaleRun.catImages;
                  UserGesture (ClickImage 0)])).
Defined.

(* ------------------------------------------------------------------ *)
(** ** An image call that settles after the user went back *)

(** The continuation of an image call runs whatever page is shown and
    whatever was generated since: it writes its result into [imageUrls],
    [imageApiState] and [error], and leaves the page, the refined prompt
    and the selection as they are. *)
Lemma image_result_is_applied_on_any_page (w : World) (n : nat)
    (prompt : jsstring) (answers : list Answer)
    (result : Settled (list jsstring)) :
  inFlight (imageCalls w) (imageSettled w) n = Some prompt ->
  outcome (generateColoringBookImage prompt) answers = Some result ->
  let w' := dispatch w (ImageSettled n answers) in
  currentPage (app w') = currentPage (app w)
  /\ generatedPrompt (app w') = generatedPrompt (app w)
  /\ selectedImageUrls (app w') = selectedImageUrls (app w)
  /\ match result with
     | Fulfilled urls =>
         imageUrls (app w') = Some urls
         /\ imageApiState (app w') = SUCCESS
         /\ error (app w') = error (app w)
     | Rejected err =>
         imageUrls (app w') = None
         /\ imageApiState (app w') = ERROR
         /\ error (app w')
            = Some (lit "Failed to generate image: " ++ describe err)
     end.
Proof.
  intros Hflight Hsettles w'. unfold w'.
  rewrite (dispatch_ImageSettled_inFlight w n Hflight answers), Hsettles.
  destruct result as [urls | err]; simpl; repeat split; reflexivity.
Qed.

(** C1 (the code does not do what the claim says).  A run driven
    through the rendered page: the first image call is in flight, the
    user goes back, and the call settles later.
    - When it settles on the prompt page, with success or with failure,
      its result is written into the state that [GoBack] had cleared.
    - When the user has submitted another idea first, it settles on the
      image page while the image call for the new prompt is in flight:
      the images of the first prompt are rendered under the new prompt,
      one of them can be selected, and it is what gets printed. *)
Theorem stale_image_result_is_stored_and_shown :
  (currentPage (app StaleRun.onImagePage) = imageDisplay
   /\ imageApiState (app StaleRun.onImagePage) = LOADING
   /\ inFlight (imageCalls StaleRun.onImagePage)
        (imageSettled StaleRun.onImagePage) 0 = Some (lit "a cute cat"))
  /\ (currentPage (app StaleRun.wentBack) = promptInput
      /\ imageUrls (app StaleRun.wentBack) = None
      /\ imageApiState (app StaleRun.wentBack) = IDLE
      /\ error (app StaleRun.wentBack) = None
      /\ inFlight (imageCalls StaleRun.wentBack)
           (imageSettled StaleRun.wentBack) 0 = Some (lit "a cute cat"))
  /\ (currentPage (app StaleRun.lateSuccess) = promptInput
      /\ imageUrls (app StaleRun.lateSuccess) = Some [Sample.imgA; Sample.imgB]
      /\ imageApiState (app StaleRun.lateSuccess) = SUCCESS)
  /\ (currentPage (app StaleRun.lateFailure) = promptInput
      /\ imageApiState (app StaleRun.lateFailure) = ERROR
      /\ error (app StaleRun.lateFailure)
         = Some (lit "Failed to generate image: Failed to generate image: quota exceeded"))
  /\ (currentPage (app StaleRun.regenerating) = imageDisplay
      /\ generatedPrompt (app StaleRun.regenerating) = lit "a cute dog"
      /\ imageUrls (app StaleRun.regenerating) = None
      /\ imageApiState (app StaleRun.regenerating) = LOADING
      /\ imageCalls StaleRun.regenerating = [lit "a cute cat"; lit "a cute dog"]
      /\ imageSettled StaleRun.regenerating = [])
  /\ (currentPage (app StaleRun.staleShown) = imageDisplay
      /\ generatedPrompt (app StaleRun.staleShown) = lit "a cute dog"
      /\ inFlight (imageCalls StaleRun.staleShown)
           (imageSettled StaleRun.staleShown) 1 = Some (lit "a cute dog")
      /\ imageApiState (app StaleRun.staleShown) = SUCCESS
      /\ imageUrls (app StaleRun.staleShown) = Some [Sample.imgA; Sample.imgB]
      /\ renderedTiles (app StaleRun.staleShown) = [Sample.imgA; Sample.imgB])
  /\ (selectedImageUrls (app StaleRun.staleSelected) = [Sample.imgA]
      /\ eventOf (app StaleRun.staleSelected) ClickPrint = Some RequestPrint
      /\ printOutcome true (app StaleRun.staleSelected)
         = PrintPages [Sample.imgA]).
Proof. vm_compute. repeat split; reflexivity. Qed.
